(** * WeaverFi query and normalisation engine: a shallow embedding

    The development follows [functions.ts] (the failover query executor,
    the three multicall demultiplexers, the five token builders and the
    wallet scan) and the [axial] adapter ([get], [getPoolBalances]).

    Conventions of the embedding:
    - a JavaScript [number] is an exact rational ([Q]); [NaN] and the
      infinities are not represented, so a division is only meaningful
      where the divisor is not zero (the statements below say so); the
      numeric examples are also evaluated on IEEE doubles, see
      [normalised_binary64];
    - a JavaScript object used as a dictionary is a [gmap string _];
    - an [async] function is a computation in the monad [M], which threads
      the log of issued batch calls and may raise;
    - every answer of the outside world (an RPC endpoint, the multicall
      helper contract, the token catalogue, the price oracle) is an
      explicit argument. *)

From Stdlib Require Import Ascii String QArith Qpower PrimFloat.
From stdpp Require Import gmap strings list fin_maps.

Local Open Scope Z_scope.
Local Open Scope string_scope.
Local Open Scope list_scope.

(** ** JavaScript values *)

(** The values an ethers call or the multicall decoder hands back. A
    [VBig] is an ethers [BigNumber] object. *)
Inductive jsval : Type :=
  | VUndefined
  | VNull
  | VBool (b : bool)
  | VNum (q : Q)
  | VStr (s : string)
  | VBig (z : Z).

(** [!v] is [negb (truthy v)]: [undefined], [null], [false], [0] and the
    empty string are falsy, every object is truthy. *)
Definition truthy (v : jsval) : bool :=
  match v with
  | VUndefined | VNull => false
  | VBool b => b
  | VNum q => negb (Qeq_bool q 0)
  | VStr s => negb (String.eqb s "")
  | VBig _ => true
  end.

(** [String.prototype.toLowerCase] and [toUpperCase] on ASCII text
    (addresses and chain names are ASCII). *)
Definition lower_ascii (c : ascii) : ascii :=
  let n := N_of_ascii c in
  if ((65 <=? n) && (n <=? 90))%N then ascii_of_N (n + 32) else c.

Definition upper_ascii (c : ascii) : ascii :=
  let n := N_of_ascii c in
  if ((97 <=? n) && (n <=? 122))%N then ascii_of_N (n - 32) else c.

Fixpoint toLowerCase (s : string) : string :=
  match s with
  | EmptyString => EmptyString
  | String c s' => String (lower_ascii c) (toLowerCase s')
  end.

Fixpoint toUpperCase (s : string) : string :=
  match s with
  | EmptyString => EmptyString
  | String c s' => String (upper_ascii c) (toUpperCase s')
  end.

(** ** Constants of [functions.ts] *)

Definition defaultTokenLogo : string :=
  "https://cdn.jsdelivr.net/gh/atomiclabs/cryptocurrency-icons@d5c68edec1f5eaec59ac77ff2b48144679cebca1/32/icon/generic.png".
Definition defaultAddress : string := "0xeeeeeeeeeeeeeeeeeeeeeeeeeeeeeeeeeeeeeeee".
Definition zero : string := "0x0000000000000000000000000000000000000000".
Definition maxQueryRetries : nat := 3.

Record IgnoredError : Type := { ie_chain : string; ie_address : string }.

Definition ignoredErrors : list IgnoredError :=
  [ {| ie_chain := "poly"; ie_address := "0x8aaa5e259f74c8114e0a471d9f2adfc66bfe09ed" |};
    {| ie_chain := "poly"; ie_address := "0x9dd12421c637689c3fc6e661c9e2f02c2f61b3eb" |} ].

(** [ignoredErrors.find(i => i.chain === chain && i.address === address.toLowerCase())],
    read as a condition (an entry is an object, hence truthy). *)
Definition isIgnored (chain address : string) : bool :=
  existsb (fun i => String.eqb (ie_chain i) chain
                    && String.eqb (ie_address i) (toLowerCase address))
          ignoredErrors.

(** ** Errors *)

(** What a [WeaverError] describes. The source formats a message from
    these parts ([`Querying ${method}(${args}) on ${address}`] and the
    like); the embedding keeps the parts. *)
Inductive ErrorDescription : Type :=
  | Querying (method : string) (args : list jsval) (address : string)
  | InvalidMulticallQuery
  | UnknownProject (project : string).

(** What an [async] function of the engine can reject with. [TypeError] is
    JavaScript's own (a property read on [undefined]); [OutsideABI] marks a
    decoded value of a kind the contract's ABI cannot produce, where the
    embedding stops following the source. *)
Inductive exn : Type :=
  | WeaverError (chain : string) (project : option string) (description : ErrorDescription)
  | TypeError
  | OutsideABI.

Inductive outcome (A : Type) : Type :=
  | Ok (a : A)
  | Raise (e : exn).
Arguments Ok {A} a.
Arguments Raise {A} e.

(** ** The chain registry ([chains.ts], a parameter of the engine) *)

Record ChainData : Type := { rpcs : list string; multicall : string }.

(** ** The failover query executor: [query] *)

(** What one execution of the [try] block does: the contract call either
    resolves with a value or rejects. *)
Inductive attempt : Type :=
  | Resolves (v : jsval)
  | Rejects.

(** The variables of the loop, and the number of attempts made so far
    (a counter of the embedding, not of the source). *)
Record QueryState : Type := {
  q_result : jsval;
  q_errors : nat;
  q_rpcID : nat;
  q_attempts : nat
}.

Inductive QueryStep : Type :=
  | Continue (s : QueryState)
  | Throw (e : exn) (attempts : nat).

(** How a run of [query] ends; [StillRunning] when the iterations granted
    to the loop are used up before it stops. *)
Inductive QueryRun : Type :=
  | Returned (v : jsval) (attempts : nat)
  | Raised (e : exn) (attempts : nat)
  | StillRunning (s : QueryState).

Section Query.
(** [respond n endpoint] is the outcome of the [n]-th attempt of this
    call (counted from 0), made against [endpoint]; the endpoint is
    absent when [rpcID] is past the end of the list. *)
Variable chains : string -> ChainData.
Variable respond : nat -> option string -> attempt.
Variables (chain address method : string) (args : list jsval).

Definition query_init : QueryState :=
  {| q_result := VUndefined; q_errors := 0; q_rpcID := 0; q_attempts := 0 |}.

(** [!result && errors < maxQueryRetries] *)
Definition query_cond (s : QueryState) : bool :=
  negb (truthy (q_result s)) && (q_errors s <? maxQueryRetries)%nat.

(** One iteration of the loop body. *)
Definition query_body (s : QueryState) : QueryStep :=
  match respond (q_attempts s) (rpcs (chains chain) !! q_rpcID s) with
  | Resolves v =>
      Continue {| q_result := v; q_errors := q_errors s; q_rpcID := q_rpcID s;
                  q_attempts := S (q_attempts s) |}
  | Rejects =>
      let rpcID := S (q_rpcID s) in
      if (length (rpcs (chains chain)) <=? rpcID)%nat then
        let errors := S (q_errors s) in
        if (maxQueryRetries <=? errors)%nat then
          if negb (isIgnored chain address) then
            Throw (WeaverError chain None (Querying method args address))
                  (S (q_attempts s))
          else
            Continue {| q_result := q_result s; q_errors := errors; q_rpcID := rpcID;
                        q_attempts := S (q_attempts s) |}
        else
          Continue {| q_result := q_result s; q_errors := errors; q_rpcID := 0%nat;
                      q_attempts := S (q_attempts s) |}
      else
        Continue {| q_result := q_result s; q_errors := q_errors s; q_rpcID := rpcID;
                    q_attempts := S (q_attempts s) |}
  end.

(** The [while] loop, run for at most [fuel] iterations. *)
Fixpoint query_loop (fuel : nat) (s : QueryState) : QueryRun :=
  if query_cond s then
    match fuel with
    | O => StillRunning s
    | S fuel' =>
        match query_body s with
        | Continue s' => query_loop fuel' s'
        | Throw e n => Raised e n
        end
    end
  else Returned (q_result s) (q_attempts s).

Definition query (fuel : nat) : QueryRun := query_loop fuel query_init.
End Query.

(** ** Asynchronous computations *)

(** The requests of [ethereum-multicall]. *)
Inductive ABI : Type := minABI | lpABI.

Record CallContext : Type := {
  reference : string;
  methodName : string;
  methodParameters : list jsval
}.

Record ContractCallContext : Type := {
  cc_reference : string;
  contractAddress : string;
  abi : ABI;
  calls : list CallContext
}.

(** One entry of [callsReturnContext]. *)
Record CallReturnContext : Type := {
  returnValues : list jsval;
  cr_reference : string;
  success : bool
}.

(** [ContractCallResults.results]: for each query reference, its
    [callsReturnContext]. *)
Abbreviation ContractCallResults := (gmap string (list CallReturnContext)).

(** A batch call that was issued: the chain and the queries it carried. *)
Record BatchCall : Type := {
  bc_chain : string;
  bc_queries : list ContractCallContext
}.

(** An [async] function: it extends the log of issued batch calls and
    resolves or rejects. *)
Definition M (A : Type) : Type := list BatchCall -> outcome A * list BatchCall.

#[global] Instance M_ret : MRet M := fun A a log => (Ok a, log).
#[global] Instance M_bind : MBind M := fun A B f m log =>
  match m log with
  | (Ok a, log') => f a log'
  | (Raise e, log') => (Raise e, log')
  end.

(** A synchronous step that may throw, inside an [async] function. *)
Definition lift {A : Type} (o : outcome A) : M A := fun log => (o, log).

(** ** The outside world *)

(** The token catalogue ([tokens.ts], a parameter of the engine). *)
Record TokenData : Type := {
  td_address : string;
  td_symbol : string;
  td_logo : string;
  td_decimals : Z
}.

Record LogoData : Type := { ld_symbol : string; ld_logo : string }.

Record ChainTokenData : Type := {
  tokens : list TokenData;
  logos : list LogoData
}.

Record TokensModule : Type := {
  eth_data : ChainTokenData;
  bsc_data : ChainTokenData;
  poly_data : ChainTokenData;
  ftm_data : ChainTokenData;
  avax_data : ChainTokenData;
  one_data : ChainTokenData;
  cronos_data : ChainTokenData
}.

(** Modelled from the spec: the Price Oracle [getTokenPrice] of [prices.ts],
    which is not among the sources. The spec gives its interface as
    [getPrice(chain, address, decimals) -> price | absent] and requires that
    its failures do not propagate as exceptions: a failed lookup is an
    absent price. *)
Definition PriceOracle : Type := string -> string -> Z -> option Q.

(** Modelled from the spec: the oracle whose every lookup fails. *)
Definition failingOracle : PriceOracle := fun _ _ _ => None.

(** Everything the engine reads from outside. [multicallCall chain queries]
    is the answer of [multicall.call(queries)] on the first endpoint of the
    chain, absent when the invocation rejects. *)
Record World : Type := {
  chains : string -> ChainData;
  tokensModule : TokensModule;
  multicallCall : string -> list ContractCallContext -> option ContractCallResults;
  getTokenPrice : PriceOracle
}.

(** ** The batch builder and demultiplexer *)

Section Multicall.
Variable W : World.

Definition multicallQuery (chain : string) (queries : list ContractCallContext)
  : M ContractCallResults :=
  fun log =>
    let log' := log ++ [ {| bc_chain := chain; bc_queries := queries |} ] in
    match multicallCall W chain queries with
    | Some results => (Ok results, log')
    | None => (Raise (WeaverError chain None InvalidMulticallQuery), log')
    end.

(** The second [forEach] of [multicallOneMethodQuery]. *)
Fixpoint oneMethodResults (multicallQueryResults : ContractCallResults)
    (contracts : list string) (results : gmap string (list jsval))
  : outcome (gmap string (list jsval)) :=
  match contracts with
  | [] => Ok results
  | contract :: rest =>
      match multicallQueryResults !! contract with
      | None => Raise TypeError
      | Some callsReturnContext =>
          match callsReturnContext !! 0%nat with
          | Some contractResults =>
              if success contractResults then
                oneMethodResults multicallQueryResults rest
                  (<[contract := returnValues contractResults]> results)
              else oneMethodResults multicallQueryResults rest results
          | None => oneMethodResults multicallQueryResults rest results
          end
      end
  end.

Definition multicallOneMethodQuery (chain : string) (contracts : list string)
    (abi : ABI) (methodName : string) (methodParameters : list jsval)
  : M (gmap string (list jsval)) :=
  let calls := [ {| reference := ""; methodName := methodName;
                    methodParameters := methodParameters |} ] in
  let queries := map (fun contract =>
    {| cc_reference := contract; contractAddress := contract; abi := abi;
       calls := calls |}) contracts in
  multicallQueryResults ← multicallQuery chain queries;
  lift (oneMethodResults multicallQueryResults contracts ∅).

(** The [forEach] of [multicallOneContractQuery]. *)
Definition oneContractResults (callsReturnContext : list CallReturnContext)
  : gmap string (list jsval) :=
  foldl (fun results result =>
           if success result then <[cr_reference result := returnValues result]> results
           else results)
        ∅ callsReturnContext.

Definition multicallOneContractQuery (chain contractAddress : string) (abi : ABI)
    (calls : list CallContext) : M (gmap string (list jsval)) :=
  let query := {| cc_reference := "oneContractQuery"; contractAddress := contractAddress;
                  abi := abi; calls := calls |} in
  multicallQueryResults ← multicallQuery chain [query];
  match multicallQueryResults !! "oneContractQuery" with
  | None => lift (Raise TypeError)
  | Some callsReturnContext => mret (oneContractResults callsReturnContext)
  end.

(** The inner [forEach] of [multicallComplexQuery]. *)
Definition complexQueryResults (contractResults : list CallReturnContext)
  : gmap string (list jsval) :=
  foldl (fun queryResults result =>
           <[cr_reference result := returnValues result]> queryResults)
        ∅ contractResults.

(** The outer [forEach] of [multicallComplexQuery]. *)
Fixpoint complexResults (multicallQueryResults : ContractCallResults)
    (contracts : list string) (results : gmap string (gmap string (list jsval)))
  : outcome (gmap string (gmap string (list jsval))) :=
  match contracts with
  | [] => Ok results
  | contract :: rest =>
      match multicallQueryResults !! contract with
      | None => Raise TypeError
      | Some contractResults =>
          complexResults multicallQueryResults rest
            (<[contract := complexQueryResults contractResults]> results)
      end
  end.

Definition multicallComplexQuery (chain : string) (contracts : list string)
    (abi : ABI) (calls : list CallContext)
  : M (gmap string (gmap string (list jsval))) :=
  let queries := map (fun contract =>
    {| cc_reference := contract; contractAddress := contract; abi := abi;
       calls := calls |}) contracts in
  multicallQueryResults ← multicallQuery chain queries;
  lift (complexResults multicallQueryResults contracts ∅).
End Multicall.

(** ** Holding records *)

(** The string literals of [TokenType] and [TokenStatus]. *)
Inductive TokenType : Type := ty_nativeToken | ty_token | ty_lpToken | ty_debt | ty_xToken.
Inductive TokenStatus : Type := st_none | st_staked | st_liquidity | st_lent | st_borrowed | st_unclaimed.

(** [NativeToken], [Token] and [DebtToken] have the same fields. *)
Record Token : Type := {
  tk_type : TokenType;
  tk_chain : string;
  tk_location : string;
  tk_status : TokenStatus;
  tk_owner : string;
  tk_symbol : string;
  tk_address : string;
  tk_balance : Q;
  tk_price : option Q;
  tk_logo : string
}.

Record PricedToken : Type := {
  pt_symbol : string;
  pt_address : string;
  pt_balance : Q;
  pt_price : option Q;
  pt_logo : string
}.

Record LPToken : Type := {
  lp_type : TokenType;
  lp_chain : string;
  lp_location : string;
  lp_status : TokenStatus;
  lp_owner : string;
  lp_symbol : string;
  lp_address : string;
  lp_balance : Q;
  lp_token0 : PricedToken;
  lp_token1 : PricedToken
}.

Record XToken : Type := {
  x_type : TokenType;
  x_chain : string;
  x_location : string;
  x_status : TokenStatus;
  x_owner : string;
  x_symbol : string;
  x_address : string;
  x_balance : Q;
  x_logo : string;
  x_underlyingToken : PricedToken
}.

(** ** Reading decoded return values *)

(** [results[key][0]]: a [TypeError] when [results[key]] is [undefined],
    [undefined] when the array is empty. *)
Definition first_of (results : gmap string (list jsval)) (key : string) : outcome jsval :=
  match results !! key with
  | None => Raise TypeError
  | Some values => Ok (default VUndefined (values !! 0%nat))
  end.

(** A [string] return value (a symbol, an address). *)
Definition as_string (v : jsval) : outcome string :=
  match v with
  | VStr s => Ok s
  | _ => Raise OutsideABI
  end.

(** A [uint8] return value, which ethers decodes as a JavaScript number. *)
Definition as_uint8 (v : jsval) : outcome Z :=
  match v with
  | VNum (Qmake n 1) => Ok n
  | _ => Raise OutsideABI
  end.

(** [parseBN]: [parseInt(ethers.BigNumber.from(bn).toString())], on the
    [BigNumber] objects the decoder returns for [uint256] values. *)
Definition parseBN (bn : jsval) : outcome Q :=
  match bn with
  | VBig z => Ok (inject_Z z)
  | _ => Raise OutsideABI
  end.

(** [10 ** decimals] *)
Definition pow10 (decimals : Z) : Q := (10 ^ decimals)%Q.

(** ** The token catalogue and the native symbols *)

Section Catalogue.
Variable W : World.

Definition getChainTokenData (chain : string) : option ChainTokenData :=
  if String.eqb chain "eth" then Some (eth_data (tokensModule W))
  else if String.eqb chain "bsc" then Some (bsc_data (tokensModule W))
  else if String.eqb chain "poly" then Some (poly_data (tokensModule W))
  else if String.eqb chain "ftm" then Some (ftm_data (tokensModule W))
  else if String.eqb chain "avax" then Some (avax_data (tokensModule W))
  else if String.eqb chain "one" then Some (one_data (tokensModule W))
  else if String.eqb chain "cronos" then Some (cronos_data (tokensModule W))
  else None.

Definition getTokens (chain : string) : list TokenData :=
  match getChainTokenData chain with
  | Some chainTokenData => tokens chainTokenData
  | None => []
  end.

Definition getTokenLogo (chain symbol : string) : string :=
  match getChainTokenData chain with
  | Some data =>
      match find (fun token => String.eqb (td_symbol token) symbol) (tokens data) with
      | Some trackedToken => td_logo trackedToken
      | None =>
          match find (fun i => String.eqb (ld_symbol i) symbol) (logos data) with
          | Some token => ld_logo token
          | None => defaultTokenLogo
          end
      end
  | None => defaultTokenLogo
  end.

Definition getTrackedTokenInfo (chain address : string) : option TokenData :=
  match getChainTokenData chain with
  | Some data =>
      find (fun token => String.eqb (toLowerCase (td_address token)) (toLowerCase address))
           (tokens data)
  | None => None
  end.

Definition getNativeTokenSymbol (chain : string) : string :=
  if String.eqb chain "bsc" then "BNB"
  else if String.eqb chain "poly" then "MATIC"
  else if String.eqb chain "cronos" then "CRO"
  else toUpperCase chain.
End Catalogue.

(** ** The token normalisation pipeline *)

#[global] Instance outcome_ret : MRet outcome := fun A a => Ok a.
#[global] Instance outcome_bind : MBind outcome := fun A B f o =>
  match o with
  | Ok a => f a
  | Raise e => Raise e
  end.

Section Builders.
Variable W : World.

(** The [symbol]/[decimals] calls every builder prepares. *)
Definition metadataCalls : list CallContext :=
  [ {| reference := "symbol"; methodName := "symbol"; methodParameters := [] |};
    {| reference := "decimals"; methodName := "decimals"; methodParameters := [] |} ].

(** [addNativeToken]; its only [await] is the price lookup. *)
Definition addNativeToken (chain : string) (rawBalance : Q) (owner : string) : Token :=
  let type := ty_nativeToken in
  let location := "wallet" in
  let status := st_none in
  let address := defaultAddress in
  let decimals := 18 in
  let balance := (rawBalance / pow10 decimals)%Q in
  let price := getTokenPrice W chain defaultAddress decimals in
  let symbol := getNativeTokenSymbol chain in
  let logo := getTokenLogo W chain symbol in
  {| tk_type := type; tk_chain := chain; tk_location := location; tk_status := status;
     tk_owner := owner; tk_symbol := symbol; tk_address := address;
     tk_balance := balance; tk_price := price; tk_logo := logo |}.

(** The "Finding Token Info" block shared, word for word, by [addToken]
    and [addDebtToken]: it settles [symbol], [decimals] and [logo]. *)
Definition findTokenInfo (chain address : string) : M (string * Z * string) :=
  if String.eqb (toLowerCase address) defaultAddress then
    let symbol := getNativeTokenSymbol chain in
    mret (symbol, 18, getTokenLogo W chain symbol)
  else
    match getTrackedTokenInfo W chain address with
    | Some token => mret (td_symbol token, td_decimals token, td_logo token)
    | None =>
        multicallResults ← multicallOneContractQuery W chain address minABI metadataCalls;
        symbol ← lift (first_of multicallResults "symbol" ≫= as_string);
        decimals ← lift (first_of multicallResults "decimals" ≫= as_uint8);
        mret (symbol, decimals, getTokenLogo W chain symbol)
    end.

Definition addToken (chain location : string) (status : TokenStatus)
    (address : string) (rawBalance : Q) (owner : string) : M Token :=
  let type := ty_token in
  '(symbol, decimals, logo) ← findTokenInfo chain address;
  let balance := (rawBalance / pow10 decimals)%Q in
  let price := getTokenPrice W chain address decimals in
  mret {| tk_type := type; tk_chain := chain; tk_location := location;
          tk_status := status; tk_owner := owner; tk_symbol := symbol;
          tk_address := address; tk_balance := balance; tk_price := price;
          tk_logo := logo |}.

Definition addDebtToken (chain location address : string) (rawBalance : Q)
    (owner : string) : M Token :=
  let type := ty_debt in
  let status := st_borrowed in
  '(symbol, decimals, logo) ← findTokenInfo chain address;
  let balance := (rawBalance / pow10 decimals)%Q in
  let price := getTokenPrice W chain address decimals in
  mret {| tk_type := type; tk_chain := chain; tk_location := location;
          tk_status := status; tk_owner := owner; tk_symbol := symbol;
          tk_address := address; tk_balance := balance; tk_price := price;
          tk_logo := logo |}.

Definition lpCalls : list CallContext :=
  [ {| reference := "symbol"; methodName := "symbol"; methodParameters := [] |};
    {| reference := "decimals"; methodName := "decimals"; methodParameters := [] |};
    {| reference := "reserves"; methodName := "getReserves"; methodParameters := [] |};
    {| reference := "totalSupply"; methodName := "totalSupply"; methodParameters := [] |};
    {| reference := "token0"; methodName := "token0"; methodParameters := [] |};
    {| reference := "token1"; methodName := "token1"; methodParameters := [] |} ].

(** How [addLPToken] settles the symbol and decimals of one paired
    token (the two [if(trackedToken)] blocks). *)
Definition pairedTokenInfo (chain : string) (trackedToken : option TokenData)
    (address : string) : M (string * Z) :=
  match trackedToken with
  | Some t => mret (td_symbol t, td_decimals t)
  | None =>
      tokenMulticallResults ← multicallOneContractQuery W chain address minABI metadataCalls;
      symbol ← lift (first_of tokenMulticallResults "symbol" ≫= as_string);
      decimals ← lift (first_of tokenMulticallResults "decimals" ≫= as_uint8);
      mret (symbol, decimals)
  end.

(** [parseBN(lpTokenReserves[i])]: a [TypeError] when the ["reserves"]
    call is missing from the batch results. *)
Definition reserve_of (lpTokenReserves : option (list jsval)) (i : nat) : outcome Q :=
  match lpTokenReserves with
  | None => Raise TypeError
  | Some values => parseBN (default VUndefined (values !! i))
  end.

Definition addLPToken (chain location : string) (status : TokenStatus)
    (address : string) (rawBalance : Q) (owner : string) : M LPToken :=
  let type := ty_lpToken in
  lpMulticallResults ← multicallOneContractQuery W chain address lpABI lpCalls;
  symbol ← lift (first_of lpMulticallResults "symbol" ≫= as_string);
  decimals ← lift (first_of lpMulticallResults "decimals" ≫= as_uint8);
  let balance := (rawBalance / pow10 decimals)%Q in
  let lpTokenReserves := lpMulticallResults !! "reserves" in
  totalSupply ← lift (first_of lpMulticallResults "totalSupply" ≫= parseBN);
  let lpTokenSupply := (totalSupply / pow10 decimals)%Q in
  address0 ← lift (first_of lpMulticallResults "token0" ≫= as_string);
  address1 ← lift (first_of lpMulticallResults "token1" ≫= as_string);
  let trackedToken0 := getTrackedTokenInfo W chain address0 in
  let trackedToken1 := getTrackedTokenInfo W chain address1 in
  '(symbol0, decimals0) ← pairedTokenInfo chain trackedToken0 address0;
  '(symbol1, decimals1) ← pairedTokenInfo chain trackedToken1 address1;
  reserve0 ← lift (reserve_of lpTokenReserves 0);
  let supply0 := (reserve0 / pow10 decimals0)%Q in
  reserve1 ← lift (reserve_of lpTokenReserves 1);
  let supply1 := (reserve1 / pow10 decimals1)%Q in
  let token0 := {| pt_symbol := symbol0; pt_address := address0;
                   pt_balance := (supply0 * (balance / lpTokenSupply))%Q;
                   pt_price := getTokenPrice W chain address0 decimals0;
                   pt_logo := getTokenLogo W chain symbol0 |} in
  let token1 := {| pt_symbol := symbol1; pt_address := address1;
                   pt_balance := (supply1 * (balance / lpTokenSupply))%Q;
                   pt_price := getTokenPrice W chain address1 decimals1;
                   pt_logo := getTokenLogo W chain symbol1 |} in
  mret {| lp_type := type; lp_chain := chain; lp_location := location;
          lp_status := status; lp_owner := owner; lp_symbol := symbol;
          lp_address := address; lp_balance := balance;
          lp_token0 := token0; lp_token1 := token1 |}.

Definition addXToken (chain location : string) (status : TokenStatus)
    (address : string) (rawBalance : Q) (owner underlyingAddress : string)
    (underlyingRawBalance : Q) : M XToken :=
  let type := ty_xToken in
  multicallResults ← multicallOneContractQuery W chain address minABI metadataCalls;
  symbol ← lift (first_of multicallResults "symbol" ≫= as_string);
  decimals ← lift (first_of multicallResults "decimals" ≫= as_uint8);
  let balance := (rawBalance / pow10 decimals)%Q in
  let logo := getTokenLogo W chain symbol in
  '(underlyingSymbol, underlyingDecimals, underlyingLogo) ←
    match getTrackedTokenInfo W chain address with
    | Some token => mret (td_symbol token, td_decimals token, td_logo token)
    | None =>
        underlyingMulticallResults ←
          multicallOneContractQuery W chain underlyingAddress minABI metadataCalls;
        underlyingSymbol ← lift (first_of underlyingMulticallResults "symbol" ≫= as_string);
        underlyingDecimals ← lift (first_of underlyingMulticallResults "decimals" ≫= as_uint8);
        mret (underlyingSymbol, underlyingDecimals, getTokenLogo W chain underlyingSymbol)
    end;
  let underlyingToken :=
    {| pt_symbol := underlyingSymbol; pt_address := underlyingAddress;
       pt_balance := (underlyingRawBalance / pow10 underlyingDecimals)%Q;
       pt_price := getTokenPrice W chain underlyingAddress underlyingDecimals;
       pt_logo := underlyingLogo |} in
  mret {| x_type := type; x_chain := chain; x_location := location;
          x_status := status; x_owner := owner; x_symbol := symbol;
          x_address := address; x_balance := balance; x_logo := logo;
          x_underlyingToken := underlyingToken |}.

(** [addTrackedToken]; its only [await] is the price lookup. *)
Definition addTrackedToken (chain location : string) (status : TokenStatus)
    (token : TokenData) (rawBalance : Q) (owner : string) : Token :=
  let type := ty_token in
  let address := td_address token in
  let symbol := td_symbol token in
  let logo := td_logo token in
  let decimals := td_decimals token in
  let balance := (rawBalance / pow10 decimals)%Q in
  let price := getTokenPrice W chain address decimals in
  {| tk_type := type; tk_chain := chain; tk_location := location; tk_status := status;
     tk_owner := owner; tk_symbol := symbol; tk_address := address;
     tk_balance := balance; tk_price := price; tk_logo := logo |}.
End Builders.

(** ** Concurrent branches *)

(** Branches started together push their records on one shared array as
    they go. [sched] is the order in which the pushes happen: each entry
    names the branch that pushes next (an entry naming a branch with
    nothing left to push is skipped); what remains when [sched] runs out
    is pushed in branch order. Every interleaving of the branches' pushes
    is the result of some [sched]. *)
Fixpoint interleave {A : Type} (sched : list nat) (pending : list (list A)) : list A :=
  match sched with
  | [] => concat pending
  | i :: sched' =>
      match pending !! i with
      | Some (x :: rest) => x :: interleave sched' (<[i := rest]> pending)
      | _ => interleave sched' pending
      end
  end.

(** What each branch pushed, when every branch resolved; the first
    rejection in branch order otherwise. *)
Fixpoint settled {A : Type} (branches : list (outcome (list A))) : outcome (list (list A)) :=
  match branches with
  | [] => Ok []
  | Ok pushed :: rest =>
      match settled rest with
      | Ok others => Ok (pushed :: others)
      | Raise e => Raise e
      end
  | Raise e :: _ => Raise e
  end.

(** [await Promise.all(promises)] followed by a read of the shared array:
    it rejects as soon as one branch rejects (with which rejection, when
    there are several, depends on timing; branch order is taken here), and
    otherwise the array holds every push. *)
Definition promiseAll {A : Type} (sched : list nat) (branches : list (outcome (list A)))
  : outcome (list A) :=
  match settled branches with
  | Ok pushed => Ok (interleave sched pushed)
  | Raise e => Raise e
  end.

(** ** The wallet scan *)

Record NativeState : Type := {
  n_balance : option Q;
  n_errors : nat;
  n_rpcID : nat
}.

Section Wallet.
Variable W : World.
(** [getBalance n endpoint]: the [n]-th [provider.getBalance(wallet)] of
    a scan, made against [endpoint]; absent when it rejects. *)
Variable getBalance : nat -> option string -> option Z.
Variable sched : list nat.

(** [!balance && errors < maxQueryRetries] *)
Definition native_cond (s : NativeState) : bool :=
  match n_balance s with
  | None => true
  | Some q => Qeq_bool q 0
  end && (n_errors s <? maxQueryRetries)%nat.

Definition native_body (chain : string) (n : nat) (s : NativeState) : NativeState :=
  match getBalance n (rpcs (chains W chain) !! n_rpcID s) with
  | Some z => {| n_balance := Some (inject_Z z); n_errors := n_errors s;
                 n_rpcID := n_rpcID s |}
  | None =>
      let rpcID := S (n_rpcID s) in
      if (length (rpcs (chains W chain)) <=? rpcID)%nat then
        {| n_balance := n_balance s; n_errors := S (n_errors s); n_rpcID := 0%nat |}
      else
        {| n_balance := n_balance s; n_errors := n_errors s; n_rpcID := rpcID |}
  end.

(** The [while] loop of [getWalletNativeTokenBalance], run for at most
    [fuel] iterations after [n] earlier ones; [None] when they are used
    up before the loop stops. *)
Fixpoint native_loop (chain : string) (fuel n : nat) (s : NativeState) : option NativeState :=
  if native_cond s then
    match fuel with
    | O => None
    | S fuel' => native_loop chain fuel' (S n) (native_body chain n s)
    end
  else Some s.

Definition getWalletNativeTokenBalance (fuel : nat) (chain wallet : string)
  : option (list Token) :=
  match native_loop chain fuel 0
          {| n_balance := None; n_errors := 0; n_rpcID := 0 |} with
  | None => None
  | Some s =>
      match n_balance s with
      | Some balance =>
          if negb (Qeq_bool balance 0) && negb (Qle_bool balance 0) then
            let newToken := addNativeToken W chain balance wallet in
            Some [newToken]
          else Some []
      | None => Some []
      end
  end.

(** One branch of [getWalletTokenBalance]: what it pushes. *)
Definition walletTokenBranch (chain wallet : string)
    (multicallResults : gmap string (list jsval)) (token : TokenData)
  : outcome (list Token) :=
  match multicallResults !! td_address token with
  | Some balanceResults =>
      rawBalance ← parseBN (default VUndefined (balanceResults !! 0%nat));
      if negb (Qle_bool rawBalance 0) then
        let newToken := addTrackedToken W chain "wallet" st_none token rawBalance wallet in
        Ok [newToken]
      else Ok []
  | None => Ok []
  end.

Definition getWalletTokenBalance (chain wallet : string) : M (list Token) :=
  match getChainTokenData W chain with
  | Some data =>
      let addresses := map td_address (tokens data) in
      multicallResults ←
        multicallOneMethodQuery W chain addresses minABI "balanceOf" [VStr wallet];
      lift (promiseAll sched
              (map (walletTokenBranch chain wallet multicallResults) (tokens data)))
  | None => mret []
  end.

Definition getWalletBalance (fuel : nat) (chain wallet : string)
  : option (M (list Token)) :=
  match getWalletNativeTokenBalance fuel chain wallet with
  | None => None
  | Some native =>
      Some (walletTokens ← getWalletTokenBalance chain wallet;
            mret (native ++ walletTokens))
  end.
End Wallet.

(** ** The [axial] adapter *)

Inductive Holding : Type :=
  | HToken (t : Token)
  | HLPToken (t : LPToken).

Section Axial.
(** [poolLength]: [parseInt(await query(chain, masterChef, ..., 'poolLength', []))],
    a rejection when the query throws. [poolBranch poolID]: the body of
    the branch started for [poolID], by what it pushed on [balances] when
    it resolves, or its rejection when one of its queries or builders
    throws. *)
Variable poolLength : outcome nat.
Variable poolBranch : nat -> outcome (list Holding).
Variable sched : list nat.

Definition getPoolBalances : outcome (list Holding) :=
  poolCount ← poolLength;
  let pools := seq 0 poolCount in
  promiseAll sched (map poolBranch pools).

(** The [try]/[catch] of [get]: [balance] receives the pool balances
    only when [getPoolBalances] resolves. *)
Definition get : list Holding :=
  match getPoolBalances with
  | Ok balances => [] ++ balances
  | Raise _ => []
  end.
End Axial.

(** ** [updates.ts]: the batches of [fetchPoolIDsFromFactory] *)

Definition batchSize : nat := 50.

(** [array.slice(start, end)] for [0 <= start <= end]: the elements from
    index [start] up to, not including, [end], clipped to the array. *)
Definition slice {A : Type} (l : list A) (start end_ : nat) : list A :=
  take (end_ - start) (drop start l).

(** The [while(endBatch < creationEvents.length + batchSize)] loop, by the
    slices it hands to [Promise.all] one after the other when no batch
    rejects; it is run for at most [fuel] iterations. *)
Fixpoint batch_loop {A : Type} (fuel : nat) (creationEvents : list A)
    (startBatch endBatch : nat) : option (list (list A)) :=
  if (endBatch <? length creationEvents + batchSize)%nat then
    match fuel with
    | O => None
    | S fuel' =>
        match batch_loop fuel' creationEvents (startBatch + batchSize) (endBatch + batchSize) with
        | Some batches => Some (slice creationEvents startBatch endBatch :: batches)
        | None => None
        end
    end
  else Some [].

(** The [if(creationEvents.length <= batchSize)] of
    [fetchPoolIDsFromFactory]: one batch with every event, or the loop
    started at [startBatch = 0], [endBatch = batchSize]. *)
Definition eventBatches {A : Type} (fuel : nat) (creationEvents : list A)
  : option (list (list A)) :=
  if (length creationEvents <=? batchSize)%nat then Some [creationEvents]
  else batch_loop fuel creationEvents 0 batchSize.

(** ** [updates.ts]: the project names of [updateProjects] *)

(** [s.endsWith(ending)] *)
Definition endsWith (s ending : string) : bool :=
  bool_decide (list_ascii_of_string ending `suffix_of` list_ascii_of_string s).

(** [s.slice(0, -n)]: [s] without its last [n] characters, the empty
    string when [s] has no more than [n]. *)
Definition sliceOffEnd (s : string) (n : nat) : string :=
  string_of_list_ascii
    (take (length (list_ascii_of_string s) - n) (list_ascii_of_string s)).

(** The project names [updateProjects] derives from the files of a chain's
    directory:
    [files.filter(project => !project.endsWith('.d.ts')).map(project => project.slice(0, -3))]. *)
Definition projectNames (files : list string) : list string :=
  map (fun project => sliceOffEnd project 3)
      (filter (fun project => negb (endsWith project ".d.ts") = true) files).

(** ** Vocabulary of the statements *)

(** How a call to [query] ends when every one of its attempts rejects, on
    a chain with [k] endpoints. *)
Definition exhausted (k : nat) (chain address method : string) (args : list jsval)
  : QueryRun :=
  if isIgnored chain address then Returned VUndefined (k * maxQueryRetries)
  else Raised (WeaverError chain None (Querying method args address))
              (k * maxQueryRetries).

(** While no attempt has resolved, the attempts made are those of the
    completed passes plus the position in the current pass. *)
Definition in_pass (k : nat) (s : QueryState) : Prop :=
  q_result s = VUndefined /\ (q_errors s < maxQueryRetries)%nat /\
  (q_rpcID s < k)%nat /\ q_attempts s = (q_errors s * k + q_rpcID s)%nat.

(** ** Sample inputs *)

Definition no_endpoint : string -> ChainData :=
  fun _ => {| rpcs := []; multicall := zero |}.

Definition one_endpoint : string -> ChainData :=
  fun _ => {| rpcs := ["https://rpc.example/a"]; multicall := zero |}.

Definition two_endpoints : string -> ChainData :=
  fun _ => {| rpcs := ["https://rpc.example/a"; "https://rpc.example/b"];
              multicall := zero |}.

Definition always_rejects : nat -> option string -> attempt := fun _ _ => Rejects.

(** A contract method that answers [false] every time, on every endpoint. *)
Definition always_false : nat -> option string -> attempt :=
  fun _ _ => Resolves (VBool false).

(** The query of [contract] resolved with a first call that succeeded. *)
Definition firstCallSucceeded (multicallQueryResults : ContractCallResults)
    (contract : string) : bool :=
  match multicallQueryResults !! contract with
  | Some (contractResults :: _) => success contractResults
  | _ => false
  end.

(** An empty catalogue. *)
Definition no_data : ChainTokenData := {| tokens := []; logos := [] |}.

Definition no_tokens : TokensModule :=
  {| eth_data := no_data; bsc_data := no_data; poly_data := no_data;
     ftm_data := no_data; avax_data := no_data; one_data := no_data;
     cronos_data := no_data |}.

(** A batch of three calls of which the helper reports the second as
    failed, whatever contract it is sent to. *)
Definition three_calls : list CallContext :=
  [ {| reference := "call1"; methodName := "token0"; methodParameters := [] |};
    {| reference := "call2"; methodName := "getReserves"; methodParameters := [] |};
    {| reference := "call3"; methodName := "token1"; methodParameters := [] |} ].

Definition second_call_failed : list CallReturnContext :=
  [ {| returnValues := [VStr "0xaaa"]; cr_reference := "call1"; success := true |};
    {| returnValues := []; cr_reference := "call2"; success := false |};
    {| returnValues := [VStr "0xbbb"]; cr_reference := "call3"; success := true |} ].

Definition helper_second_call_failed (chain : string) (queries : list ContractCallContext)
  : option ContractCallResults :=
  Some (list_to_map (map (fun q => (cc_reference q, second_call_failed)) queries)).

Definition world_second_call_failed : World :=
  {| chains := one_endpoint; tokensModule := no_tokens;
     multicallCall := helper_second_call_failed; getTokenPrice := failingOracle |}.






(** The same run, with [f] applied to the record it resolves with. *)
Definition resolved_with {A B : Type} (f : A -> B) (r : outcome A * list BatchCall)
  : outcome B * list BatchCall :=
  (match r.1 with Ok a => Ok (f a) | Raise e => Raise e end, r.2).

(** The one batch call [multicallOneContractQuery] issues. *)
Definition oneContractCall (chain contractAddress : string) (abi : ABI)
    (calls : list CallContext) : BatchCall :=
  {| bc_chain := chain;
     bc_queries := [ {| cc_reference := "oneContractQuery";
                        contractAddress := contractAddress; abi := abi;
                        calls := calls |} ] |}.

(** The answer of an ERC-20 contract to the [symbol] and [decimals] calls. *)
Definition metadata_answer (symbol : string) (decimals : Z) : list CallReturnContext :=
  [ {| returnValues := [VStr symbol]; cr_reference := "symbol"; success := true |};
    {| returnValues := [VNum (inject_Z decimals)]; cr_reference := "decimals";
       success := true |} ].

(** A catalogue that lists the native sentinel address. *)
Definition sentinel_entry : TokenData :=
  {| td_address := defaultAddress; td_symbol := "WETH"; td_logo := "weth.png";
     td_decimals := 6 |}.

Definition world_sentinel_listed : World :=
  {| chains := one_endpoint;
     tokensModule :=
       {| eth_data := {| tokens := [sentinel_entry]; logos := [] |};
          bsc_data := no_data; poly_data := no_data; ftm_data := no_data;
          avax_data := no_data; one_data := no_data; cronos_data := no_data |};
     multicallCall := fun _ _ => None;
     getTokenPrice := failingOracle |}.

(** An [avax] catalogue that tracks JOE and the derivative token qiUSDC (8
    decimals) but neither xJOE, a derivative of JOE, nor USDC (6 decimals),
    the underlying of qiUSDC; and a helper that answers the metadata calls
    of the four contracts. *)
Definition joe : string := "0x6e84a6216eA6dACC71eE8E6b0a5B7322EEbC0fDd".
Definition xjoe : string := "0x57319d41F71E81F3c65F2a47CA4e001EbAFd4F33".
Definition qiusdc : string := "0xBEb5d47A3f720Ec0a390d04b4d41ED7d9688bC7F".
Definition usdc : string := "0xB97EF9Ef8734C71904D8002F8b6Bc66Dd9c48a6E".

Definition joe_entry : TokenData :=
  {| td_address := joe; td_symbol := "JOE"; td_logo := "joe.png"; td_decimals := 18 |}.
Definition qiusdc_entry : TokenData :=
  {| td_address := qiusdc; td_symbol := "qiUSDC"; td_logo := "qiusdc.png"; td_decimals := 8 |}.

Definition erc20_metadata (contract : string) : list CallReturnContext :=
  if String.eqb contract joe then metadata_answer "JOE" 18
  else if String.eqb contract xjoe then metadata_answer "xJOE" 18
  else if String.eqb contract qiusdc then metadata_answer "qiUSDC" 8
  else if String.eqb contract usdc then metadata_answer "USDC" 6
  else [].

Definition world_avax : World :=
  {| chains := one_endpoint;
     tokensModule :=
       {| eth_data := no_data; bsc_data := no_data; poly_data := no_data;
          ftm_data := no_data;
          avax_data := {| tokens := [joe_entry; qiusdc_entry]; logos := [] |};
          one_data := no_data; cronos_data := no_data |};
     multicallCall := fun _ queries =>
       Some (list_to_map
               (map (fun q => (cc_reference q, erc20_metadata (contractAddress q))) queries));
     getTokenPrice := failingOracle |}.

(** What an LP record is made of: [results] is the answer to the batch
    call on the pair, [decimals], [totalSupply] and the reserves are read
    from it, and [decimals0], [decimals1] are the decimals found for the
    paired tokens, the ones their prices are looked up with. *)
Definition lp_decomposition (W : World) (chain address : string) (rawBalance : Q)
    (log : list BatchCall) (lp : LPToken) : Prop :=
  exists (results : gmap string (list jsval)) (decimals totalSupply : Z)
         (reserves : list jsval) (reserve0 reserve1 decimals0 decimals1 : Z),
    (multicallOneContractQuery W chain address lpABI lpCalls log).1 = Ok results /\
    first_of results "decimals" = Ok (VNum (inject_Z decimals)) /\
    first_of results "totalSupply" = Ok (VBig totalSupply) /\
    results !! "reserves" = Some reserves /\
    reserves !! 0%nat = Some (VBig reserve0) /\
    reserves !! 1%nat = Some (VBig reserve1) /\
    pt_price (lp_token0 lp)
    = getTokenPrice W chain (pt_address (lp_token0 lp)) decimals0 /\
    pt_price (lp_token1 lp)
    = getTokenPrice W chain (pt_address (lp_token1 lp)) decimals1 /\
    let holderLPBalance := (rawBalance / pow10 decimals)%Q in
    let supply := (inject_Z totalSupply / pow10 decimals)%Q in
    let share0 := (inject_Z reserve0 / pow10 decimals0)%Q in
    let share1 := (inject_Z reserve1 / pow10 decimals1)%Q in
    lp_balance lp = holderLPBalance /\
    pt_balance (lp_token0 lp) = (share0 * (holderLPBalance / supply))%Q /\
    pt_balance (lp_token1 lp) = (share1 * (holderLPBalance / supply))%Q /\
    (totalSupply <> 0 ->
     (pt_balance (lp_token0 lp)
      == inject_Z reserve0 * rawBalance / inject_Z totalSupply / pow10 decimals0)%Q /\
     (pt_balance (lp_token1 lp)
      == inject_Z reserve1 * rawBalance / inject_Z totalSupply / pow10 decimals1)%Q) /\
    (totalSupply <> 0 -> (rawBalance == inject_Z totalSupply)%Q ->
     (pt_balance (lp_token0 lp) == share0)%Q /\
     (pt_balance (lp_token1 lp) == share1)%Q).

(** A JOE/USDC pair on [avax]: raw reserves of 1000 JOE (18 decimals) and
    2000 USDC (6 decimals), a raw total supply of 100 LP tokens (18
    decimals). *)
Definition pair : string := "0x67926d973cD8eE876aD210fAaf7DFfA99E414aCf".

Definition pair_answer : list CallReturnContext :=
  [ {| returnValues := [VStr "JLP"]; cr_reference := "symbol"; success := true |};
    {| returnValues := [VNum 18]; cr_reference := "decimals"; success := true |};
    {| returnValues := [VBig 1000000000000000000000; VBig 2000000000; VBig 1650000000];
       cr_reference := "reserves"; success := true |};
    {| returnValues := [VBig 100000000000000000000]; cr_reference := "totalSupply";
       success := true |};
    {| returnValues := [VStr joe]; cr_reference := "token0"; success := true |};
    {| returnValues := [VStr usdc]; cr_reference := "token1"; success := true |} ].

Definition world_pair : World :=
  {| chains := chains world_avax;
     tokensModule := tokensModule world_avax;
     multicallCall := fun _ queries =>
       Some (list_to_map
               (map (fun q => (cc_reference q,
                               if String.eqb (contractAddress q) pair then pair_answer
                               else erc20_metadata (contractAddress q))) queries));
     getTokenPrice := failingOracle |}.

(** Two pool branches: the first pushes one record, the second rejects. *)
Definition staked_joe : Holding :=
  HToken {| tk_type := ty_token; tk_chain := "avax"; tk_location := "axial";
            tk_status := st_staked; tk_owner := "0xowner"; tk_symbol := "JOE";
            tk_address := joe; tk_balance := 5; tk_price := None;
            tk_logo := "joe.png" |}.

Definition second_pool_rejects (poolID : nat) : outcome (list Holding) :=
  match poolID with
  | O => Ok [staked_joe]
  | _ => Raise (WeaverError "avax" None (Querying "userInfo" [VNum 1; VStr "0xowner"] zero))
  end.

(** The queries [getWalletTokenBalance] sends: one [balanceOf(wallet)]
    call to each token of the catalogue. *)
Definition balanceOfQueries (data : ChainTokenData) (wallet : string)
  : list ContractCallContext :=
  map (fun contract =>
         {| cc_reference := contract; contractAddress := contract; abi := minABI;
            calls := [ {| reference := ""; methodName := "balanceOf";
                          methodParameters := [VStr wallet] |} ] |})
      (map td_address (tokens data)).

(** The record of a native balance that an endpoint answered and that is
    strictly positive. *)
Definition scanned_native (W : World) (getBalance : nat -> option string -> option Z)
    (chain wallet : string) (t : Token) : Prop :=
  exists (z : Z) (n : nat) (endpoint : option string),
    getBalance n endpoint = Some z /\ 0 < z /\
    t = addNativeToken W chain (inject_Z z) wallet.

(** The record of a tracked token whose [balanceOf] call succeeded in the
    batch, with a strictly positive result. *)
Definition scanned_tracked (W : World) (chain wallet : string) (t : Token) : Prop :=
  exists (data : ChainTokenData) (token : TokenData) (res : ContractCallResults)
         (contractResults : CallReturnContext) (rest : list CallReturnContext) (z : Z),
    getChainTokenData W chain = Some data /\ token ∈ tokens data /\
    multicallCall W chain (balanceOfQueries data wallet) = Some res /\
    res !! td_address token = Some (contractResults :: rest) /\
    success contractResults = true /\
    returnValues contractResults !! 0%nat = Some (VBig z) /\ 0 < z /\
    t = addTrackedToken W chain "wallet" st_none token (inject_Z z) wallet.

(** A wallet on [avax] with 3 AVAX and 5 JOE; its qiUSDC balance is zero,
    and a third tracked token, USDC, has a failing [balanceOf]. *)
Definition usdc_entry : TokenData :=
  {| td_address := usdc; td_symbol := "USDC"; td_logo := "usdc.png"; td_decimals := 6 |}.

Definition balanceOf_answer (contract : string) : list CallReturnContext :=
  if String.eqb contract joe then
    [ {| returnValues := [VBig 5000000000000000000]; cr_reference := ""; success := true |} ]
  else if String.eqb contract qiusdc then
    [ {| returnValues := [VBig 0]; cr_reference := ""; success := true |} ]
  else [ {| returnValues := []; cr_reference := ""; success := false |} ].

Definition world_wallet : World :=
  {| chains := two_endpoints;
     tokensModule :=
       {| eth_data := no_data; bsc_data := no_data; poly_data := no_data;
          ftm_data := no_data;
          avax_data := {| tokens := [joe_entry; qiusdc_entry; usdc_entry]; logos := [] |};
          one_data := no_data; cronos_data := no_data |};
     multicallCall := fun _ queries =>
       Some (list_to_map
               (map (fun q => (cc_reference q, balanceOf_answer (contractAddress q))) queries));
     getTokenPrice := failingOracle |}.

(** The first endpoint is down, the second answers 3 AVAX. *)
Definition second_endpoint_answers (n : nat) (endpoint : option string) : option Z :=
  match n with
  | O => None
  | _ => Some 3000000000000000000
  end.

(** Every endpoint answers a balance of zero. *)
Definition empty_wallet : nat -> option string -> option Z := fun _ _ => Some 0.

(** The balance held by the native-balance loop is one an endpoint
    answered. *)
Definition answered (getBalance : nat -> option string -> option Z) (s : NativeState)
  : Prop :=
  match n_balance s with
  | None => True
  | Some q => exists z n endpoint, getBalance n endpoint = Some z /\ q = inject_Z z
  end.

(** ** The arithmetic of the builders on IEEE doubles *)

(** [10 ** decimals], by repeated multiplication (exact up to 10^22). *)
Fixpoint pow10_binary64 (decimals : nat) : float :=
  match decimals with
  | O => 1%float
  | S decimals' => (10 * pow10_binary64 decimals')%float
  end.

(** [rawBalance / (10 ** decimals)] *)
Definition normalised_binary64 (rawBalance : float) (decimals : nat) : float :=
  (rawBalance / pow10_binary64 decimals)%float.

(** [supply * (balance / lpTokenSupply)] *)
Definition share_binary64 (supply balance lpTokenSupply : float) : float :=
  (supply * (balance / lpTokenSupply))%float.

(** ** More vocabulary *)

(** The first attempt rejects, every later one answers a [BigNumber]. *)
Definition answers_on_retry (n : nat) (endpoint : option string) : attempt :=
  match n with
  | O => Rejects
  | _ => Resolves (VBig 7)
  end.

(** The queries [multicallOneMethodQuery] and [multicallComplexQuery] send:
    the same calls to each contract, under the contract's address. *)
Definition perContractQueries (contracts : list string) (abi : ABI)
    (calls : list CallContext) : list ContractCallContext :=
  map (fun contract =>
         {| cc_reference := contract; contractAddress := contract; abi := abi;
            calls := calls |}) contracts.

(** The one call of [multicallOneMethodQuery]. *)
Definition oneMethodCall (methodName : string) (methodParameters : list jsval)
  : list CallContext :=
  [ {| reference := ""; methodName := methodName; methodParameters := methodParameters |} ].

(** The return values of the first call of [contract], when it succeeded. *)
Definition firstCallValues (multicallQueryResults : ContractCallResults)
    (contract : string) : option (list jsval) :=
  match multicallQueryResults !! contract with
  | Some (contractResults :: _) =>
      if success contractResults then Some (returnValues contractResults) else None
  | _ => None
  end.

(** A record retagged as a debt. *)
Definition as_debt (t : Token) : Token :=
  {| tk_type := ty_debt; tk_chain := tk_chain t; tk_location := tk_location t;
     tk_status := st_borrowed; tk_owner := tk_owner t; tk_symbol := tk_symbol t;
     tk_address := tk_address t; tk_balance := tk_balance t; tk_price := tk_price t;
     tk_logo := tk_logo t |}.

(** The batch call [addLPToken] issues for a paired token: none when the
    catalogue has the token. *)
Definition pairedTokenCalls (W : World) (chain address : string) : list BatchCall :=
  match getTrackedTokenInfo W chain address with
  | Some _ => []
  | None => [oneContractCall chain address minABI metadataCalls]
  end.

(** The endpoints of the native-balance loop all reject. *)
Definition no_balance_answer : nat -> option string -> option Z := fun _ _ => None.

(** A world whose batching helper cannot be reached. *)
Definition world_helper_down : World :=
  {| chains := chains world_wallet; tokensModule := tokensModule world_wallet;
     multicallCall := fun _ _ => None; getTokenPrice := failingOracle |}.

(** A helper that answers the [symbol] call of every contract and fails
    its [decimals] call. *)
Definition world_decimals_failed : World :=
  {| chains := one_endpoint; tokensModule := no_tokens;
     multicallCall := fun _ queries =>
       Some (list_to_map
               (map (fun q => (cc_reference q,
                  [ {| returnValues := [VStr "TKN"]; cr_reference := "symbol";
                       success := true |};
                    {| returnValues := []; cr_reference := "decimals";
                       success := false |} ])) queries));
     getTokenPrice := failingOracle |}.

(** A record moved to another type, location and status. *)
Definition retagged (type : TokenType) (location : string) (status : TokenStatus)
    (t : Token) : Token :=
  {| tk_type := type; tk_chain := tk_chain t; tk_location := location;
     tk_status := status; tk_owner := tk_owner t; tk_symbol := tk_symbol t;
     tk_address := tk_address t; tk_balance := tk_balance t; tk_price := tk_price t;
     tk_logo := tk_logo t |}.

(** The references [addLPToken] reads from the answer of the pair. *)
Definition lpReferences : list string :=
  ["symbol"; "decimals"; "reserves"; "totalSupply"; "token0"; "token1"].

(** While no balance has been read, the iterations done by the
    native-balance loop are those of the completed passes plus the position
    in the current pass; a pass has [k] attempts, one when the chain has no
    endpoint. *)
Definition in_native_pass (k : nat) (s : NativeState) (n : nat) : Prop :=
  n_balance s = None /\ (n_rpcID s < Nat.max k 1)%nat /\
  n = (n_errors s * Nat.max k 1 + n_rpcID s)%nat.

(** The first endpoint is down, the second answers a negative number. *)
Definition second_endpoint_answers_negative (n : nat) (endpoint : option string)
  : option Z :=
  match n with
  | O => None
  | _ => Some (-5)
  end.

(** * Properties *)

(** ** The failover query executor *)

Section QueryFacts.
Variable chains : string -> ChainData.
Variable respond : nat -> option string -> attempt.
Variables (chain address method : string) (args : list jsval).

Local Abbreviation k := (length (rpcs (chains chain))).

Lemma query_loop_stop (fuel : nat) (s : QueryState) :
  query_cond s = false ->
  query_loop chains respond chain address method args fuel s
  = Returned (q_result s) (q_attempts s).
Proof. intros H. destruct fuel; cbn [query_loop]; rewrite H; reflexivity. Qed.

Lemma query_loop_step (fuel : nat) (s : QueryState) :
  query_cond s = true ->
  query_loop chains respond chain address method args (S fuel) s
  = match query_body chains respond chain address method args s with
    | Continue s' => query_loop chains respond chain address method args fuel s'
    | Throw e n => Raised e n
    end.
Proof. intros H. cbn [query_loop]. rewrite H. reflexivity. Qed.

Lemma in_pass_cond (s : QueryState) : in_pass k s -> query_cond s = true.
Proof.
  intros (Hres & Herr & _). unfold query_cond. rewrite Hres. cbn [truthy negb andb].
  apply Nat.ltb_lt, Herr.
Qed.

Lemma query_loop_all_reject (m fuel : nat) (s : QueryState) :
  (forall n ep, respond n ep = Rejects) ->
  in_pass k s ->
  (k * maxQueryRetries - q_attempts s = m)%nat -> (m <= fuel)%nat ->
  query_loop chains respond chain address method args fuel s
  = exhausted k chain address method args.
Proof.
  intros Hrej. revert fuel s.
  induction m as [|m IH]; intros fuel s Hin Hm Hfuel.
  - destruct Hin as (_ & Herr & Hid & Hatt). unfold maxQueryRetries in *. nia.
  - destruct fuel as [|fuel]; [lia|].
    rewrite query_loop_step by (apply in_pass_cond, Hin).
    destruct Hin as (Hres & Herr & Hid & Hatt).
    unfold query_body. rewrite Hrej. cbv zeta.
    destruct (Nat.leb_spec k (S (q_rpcID s))) as [Hlast|Hmore].
    + destruct (Nat.leb_spec maxQueryRetries (S (q_errors s))) as [Hdone|Hpass].
      * assert (Hall : S (q_attempts s) = (k * maxQueryRetries)%nat)
          by (unfold maxQueryRetries in *; nia).
        unfold exhausted. rewrite Hres, Hall.
        destruct (isIgnored chain address); cbn [negb]; [|reflexivity].
        rewrite query_loop_stop; [reflexivity|].
        unfold query_cond. cbn [q_result q_errors truthy negb andb].
        apply Nat.ltb_ge. lia.
      * apply IH; [|cbn [q_attempts]; lia|lia].
        unfold in_pass, maxQueryRetries in *. cbn. repeat split; try assumption; nia.
    + apply IH; [|cbn [q_attempts]; lia|lia].
      unfold in_pass, maxQueryRetries in *. cbn. repeat split; try assumption; lia.
Qed.

(** When no attempt resolves with a falsy value, the loop stops within
    [k * maxQueryRetries] attempts: at the first attempt that resolves,
    or after the last pass. *)
Lemma query_loop_bounded (m fuel : nat) (s : QueryState) :
  (forall n ep v, respond n ep = Resolves v -> truthy v = true) ->
  in_pass k s ->
  (k * maxQueryRetries - q_attempts s = m)%nat -> (m <= fuel)%nat ->
  match query_loop chains respond chain address method args fuel s with
  | Returned v n =>
      (n <= k * maxQueryRetries)%nat /\
      (truthy v = true -> exists j ep, n = S j /\ respond j ep = Resolves v) /\
      (truthy v = false -> n = (k * maxQueryRetries)%nat)
  | Raised _ n => n = (k * maxQueryRetries)%nat
  | StillRunning _ => False
  end.
Proof.
  intros Htruthy. revert fuel s.
  induction m as [|m IH]; intros fuel s Hin Hm Hfuel.
  - destruct Hin as (_ & Herr & Hid & Hatt). unfold maxQueryRetries in *. nia.
  - destruct fuel as [|fuel]; [lia|].
    rewrite query_loop_step by (apply in_pass_cond, Hin).
    destruct Hin as (Hres & Herr & Hid & Hatt).
    unfold query_body.
    destruct (respond (q_attempts s) (rpcs (chains chain) !! q_rpcID s)) as [v|] eqn:Hresp.
    + pose proof (Htruthy _ _ _ Hresp) as Hv.
      rewrite query_loop_stop
        by (unfold query_cond; cbn [q_result]; rewrite Hv; reflexivity).
      cbn [q_result q_attempts]. split; [lia|]. split.
      * intros _. eauto.
      * intros Hf. congruence.
    + cbv zeta.
      destruct (Nat.leb_spec k (S (q_rpcID s))) as [Hlast|Hmore].
      * destruct (Nat.leb_spec maxQueryRetries (S (q_errors s))) as [Hdone|Hpass].
        -- assert (Hall : S (q_attempts s) = (k * maxQueryRetries)%nat)
             by (unfold maxQueryRetries in *; nia).
           destruct (isIgnored chain address); cbn [negb]; [|exact Hall].
           rewrite query_loop_stop.
           ++ cbn [q_result q_attempts]. rewrite Hres. cbn [truthy].
              split; [lia|]. split; [discriminate|]. intros _. exact Hall.
           ++ unfold query_cond. cbn [q_result q_errors]. rewrite Hres.
              cbn [truthy negb andb]. apply Nat.ltb_ge. lia.
        -- apply IH; [|cbn [q_attempts]; lia|lia].
           unfold in_pass, maxQueryRetries in *. cbn.
           repeat split; try assumption; nia.
      * apply IH; [|cbn [q_attempts]; lia|lia].
        unfold in_pass, maxQueryRetries in *. cbn.
        repeat split; try assumption; lia.
Qed.
End QueryFacts.

Lemma in_pass_init (k : nat) : (1 <= k)%nat -> in_pass k query_init.
Proof.
  intros Hk. unfold in_pass, query_init, maxQueryRetries. cbn.
  repeat split; try reflexivity; lia.
Qed.

(** X3. With at least one endpoint and no falsy result, [query] stops
    within (#endpoints) x (retry limit) attempts. *)
Lemma query_bounded_when_results_truthy chains respond chain address method args fuel :
  (1 <= length (rpcs (chains chain)))%nat ->
  (forall n ep v, respond n ep = Resolves v -> truthy v = true) ->
  (length (rpcs (chains chain)) * maxQueryRetries <= fuel)%nat ->
  match query chains respond chain address method args fuel with
  | Returned _ n | Raised _ n => (n <= length (rpcs (chains chain)) * maxQueryRetries)%nat
  | StillRunning _ => False
  end.
Proof.
  intros Hk Htruthy Hfuel. unfold query.
  pose proof (query_loop_bounded chains respond chain address method args
                _ fuel query_init Htruthy (in_pass_init _ Hk) eq_refl) as H.
  cbn [q_attempts query_init] in H. rewrite Nat.sub_0_r in H. specialize (H Hfuel).
  destruct (query_loop _ _ _ _ _ _ _ _); [apply H| |exact H]. lia.
Qed.

(** C1 (as amended). On a chain with k >= 1 endpoints, a call to [query]
    whose every attempt rejects makes exactly k x 3 attempts; it then
    throws a [WeaverError] carrying the chain, the method, the arguments and
    the address, unless (chain, lowercased address) is in [ignoredErrors],
    in which case it returns [undefined] after the same number of attempts,
    as for ["poly"] and the QuickSwap registry address. *)
Theorem query_all_attempts_fail chains respond chain address method args fuel :
  (1 <= length (rpcs (chains chain)))%nat ->
  (forall n ep, respond n ep = Rejects) ->
  (length (rpcs (chains chain)) * maxQueryRetries <= fuel)%nat ->
  maxQueryRetries = 3%nat /\
  query chains respond chain address method args fuel
  = (if isIgnored chain address
     then Returned VUndefined (length (rpcs (chains chain)) * maxQueryRetries)
     else Raised (WeaverError chain None (Querying method args address))
                 (length (rpcs (chains chain)) * maxQueryRetries)) /\
  (chain = "poly" ->
   toLowerCase address = "0x8aaa5e259f74c8114e0a471d9f2adfc66bfe09ed" ->
   query chains respond chain address method args fuel
   = Returned VUndefined (length (rpcs (chains chain)) * maxQueryRetries)).
Proof.
  intros Hk Hrej Hfuel.
  assert (Hrun : query chains respond chain address method args fuel
                 = exhausted (length (rpcs (chains chain))) chain address method args).
  { unfold query.
    apply (query_loop_all_reject chains respond chain address method args
             (length (rpcs (chains chain)) * maxQueryRetries));
      [exact Hrej|apply in_pass_init, Hk|cbn; lia|exact Hfuel]. }
  split; [reflexivity|]. split; [exact Hrun|].
  intros -> Hlow. rewrite Hrun. unfold exhausted, isIgnored. rewrite Hlow. reflexivity.
Qed.

Lemma query_all_attempts_fail_witness :
  query two_endpoints always_rejects "poly" "0x8AAA5E259F74C8114E0A471D9F2ADFC66BFE09ED"
        "getStakingRewards" [VNum 0] 6
  = Returned VUndefined 6
  /\ query two_endpoints always_rejects "avax" "0x958C0d0baA8F220846d3966742D4Fb5edc5493D3"
           "poolLength" [] 6
     = Raised (WeaverError "avax" None
                 (Querying "poolLength" [] "0x958C0d0baA8F220846d3966742D4Fb5edc5493D3")) 6.
Proof.
  split.
  - refine (proj1 (proj2 (query_all_attempts_fail two_endpoints always_rejects "poly"
             "0x8AAA5E259F74C8114E0A471D9F2ADFC66BFE09ED" "getStakingRewards" [VNum 0] 6
             _ _ _))); [cbn; lia|reflexivity|cbn; lia].
  - refine (proj1 (proj2 (query_all_attempts_fail two_endpoints always_rejects "avax"
             "0x958C0d0baA8F220846d3966742D4Fb5edc5493D3" "poolLength" [] 6
             _ _ _))); [cbn; lia|reflexivity|cbn; lia].
Defined.

(** C1 (as stated) fails on a chain without endpoints: each of the three
    passes still makes one attempt (against no endpoint), so three attempts
    precede the error, not 0 x 3. *)
Lemma query_no_endpoint_counterexample :
  length (rpcs (no_endpoint "eth")) = 0%nat /\
  (forall fuel,
     query no_endpoint always_rejects "eth" zero "symbol" [] fuel
     <> Raised (WeaverError "eth" None (Querying "symbol" [] zero))
               (length (rpcs (no_endpoint "eth")) * maxQueryRetries)) /\
  query no_endpoint always_rejects "eth" zero "symbol" [] 3
  = Raised (WeaverError "eth" None (Querying "symbol" [] zero)) 3.
Proof.
  split; [reflexivity|]. split; [|reflexivity].
  intros [|[|[|fuel]]]; cbn; discriminate.
Qed.

Lemma query_loop_always_false (fuel n : nat) :
  query_loop one_endpoint always_false "eth" zero "paused" [] fuel
    {| q_result := VBool false; q_errors := 0; q_rpcID := 0; q_attempts := n |}
  = StillRunning {| q_result := VBool false; q_errors := 0; q_rpcID := 0;
                    q_attempts := n + fuel |}.
Proof.
  revert n. induction fuel as [|fuel IH]; intros n.
  - cbn. rewrite Nat.add_0_r. reflexivity.
  - rewrite query_loop_step by reflexivity. cbn [query_body always_false].
    rewrite IH. cbn [q_attempts]. do 2 f_equal. lia.
Qed.

(** C5 (the code at the failing input). On a chain with one endpoint, a
    method that resolves with [false] every time is called again and
    again: after any number of iterations the loop is still running, every
    iteration having made one more successful attempt, so the attempts
    exceed 1 x 3. *)
Theorem query_falsy_result_never_stops (fuel : nat) :
  query one_endpoint always_false "eth" zero "paused" [] (S fuel)
  = StillRunning {| q_result := VBool false; q_errors := 0; q_rpcID := 0;
                    q_attempts := S fuel |}.
Proof.
  unfold query. rewrite query_loop_step by reflexivity.
  cbn [query_body always_false query_init q_attempts q_errors q_rpcID].
  rewrite query_loop_always_false. reflexivity.
Qed.

(** ** The batch demultiplexers *)

Section MulticallFacts.
Variable W : World.

Lemma oneContractResults_dom_acc (callsReturnContext : list CallReturnContext)
    (acc : gmap string (list jsval)) :
  dom (foldl (fun results result =>
                if success result
                then <[cr_reference result := returnValues result]> results
                else results) acc callsReturnContext)
  = dom acc ∪ list_to_set (cr_reference <$> filter (fun r => success r = true) callsReturnContext).
Proof.
  revert acc. induction callsReturnContext as [|r l IH]; intros acc; cbn [foldl].
  - set_solver.
  - rewrite IH. rewrite filter_cons. destruct (success r) eqn:Hs.
    + rewrite decide_True by reflexivity. rewrite dom_insert_L. set_solver.
    + rewrite decide_False by discriminate. reflexivity.
Qed.

(** many-methods-one-contract: the keys of the result are exactly the
    references of the calls that succeeded. *)
Lemma oneContractResults_dom (callsReturnContext : list CallReturnContext) :
  dom (oneContractResults callsReturnContext)
  = list_to_set (cr_reference <$> filter (fun r => success r = true) callsReturnContext).
Proof.
  unfold oneContractResults. rewrite oneContractResults_dom_acc. set_solver.
Qed.

Lemma oneMethodResults_dom_acc (res : ContractCallResults) (contracts : list string)
    (acc results : gmap string (list jsval)) :
  oneMethodResults res contracts acc = Ok results ->
  dom results
  = dom acc ∪ list_to_set (filter (fun c => firstCallSucceeded res c = true) contracts).
Proof.
  revert acc. induction contracts as [|c l IH]; intros acc; cbn [oneMethodResults].
  - intros [= <-]. set_solver.
  - rewrite filter_cons.
    assert (Hf : firstCallSucceeded res c
                 = match res !! c with Some (cr :: _) => success cr | _ => false end)
      by reflexivity.
    destruct (res !! c) as [[|cr rest]|] eqn:Hc; simpl; [| |discriminate].
    + rewrite decide_False by (rewrite Hf; discriminate). apply IH.
    + destruct (success cr) eqn:Hs.
      * rewrite decide_True by exact Hf.
        intros H. rewrite (IH _ H), dom_insert_L. set_solver.
      * rewrite decide_False by (rewrite Hf; discriminate). apply IH.
Qed.

(** one-method-many-contracts: the keys of the result are exactly the
    contracts whose call succeeded. *)
Lemma oneMethodResults_dom (res : ContractCallResults) (contracts : list string)
    (results : gmap string (list jsval)) :
  oneMethodResults res contracts ∅ = Ok results ->
  dom results = list_to_set (filter (fun c => firstCallSucceeded res c = true) contracts).
Proof. intros H. rewrite (oneMethodResults_dom_acc _ _ _ _ H). set_solver. Qed.

(** What a key of the one-method result stands for. *)
Lemma oneMethodResults_lookup (res : ContractCallResults) (contracts : list string)
    (acc results : gmap string (list jsval)) (c : string) (values : list jsval) :
  oneMethodResults res contracts acc = Ok results ->
  results !! c = Some values ->
  acc !! c = Some values \/
  exists cr rest, res !! c = Some (cr :: rest) /\ success cr = true /\ returnValues cr = values.
Proof.
  revert acc. induction contracts as [|c' l IH]; intros acc; cbn [oneMethodResults].
  - intros [= <-] H. left. exact H.
  - destruct (res !! c') as [[|cr rest]|] eqn:Hc; cbn; [| |discriminate].
    + apply IH.
    + destruct (success cr) eqn:Hs; [|apply IH].
      intros H Hl. destruct (IH _ H Hl) as [Hacc|Hex]; [|right; exact Hex].
      destruct (decide (c' = c)) as [->|Hne].
      * rewrite lookup_insert_eq in Hacc. injection Hacc as <-. right. eauto.
      * rewrite lookup_insert_ne in Hacc by exact Hne. left. exact Hacc.
Qed.
End MulticallFacts.

(** C2 (the code at the failing input). The helper answers a batch of three
    calls with the second one marked as failed. [multicallOneContractQuery]
    returns exactly the keys of calls 1 and 3; [multicallComplexQuery] on
    the same answer returns all three keys, the failed call's among them. *)
Theorem multicallComplexQuery_keeps_failed_call :
  (exists results,
     fst (multicallOneContractQuery world_second_call_failed "eth" "0xpool" minABI
            three_calls []) = Ok results /\
     dom results = {["call1"; "call3"]} /\ results !! "call2" = None) /\
  (exists results queryResults,
     fst (multicallComplexQuery world_second_call_failed "eth" ["0xpool"] minABI
            three_calls []) = Ok results /\
     results !! "0xpool" = Some queryResults /\
     dom queryResults = {["call1"; "call2"; "call3"]} /\
     queryResults !! "call2" = Some []).
Proof.
  split.
  - exists (oneContractResults second_call_failed).
    split; [reflexivity|]. split; [|reflexivity].
    rewrite oneContractResults_dom. cbn. set_solver.
  - exists {["0xpool" := complexQueryResults second_call_failed]},
           (complexQueryResults second_call_failed).
    split; [reflexivity|]. split; [reflexivity|]. split; [|reflexivity].
    unfold complexQueryResults. cbn [second_call_failed foldl cr_reference returnValues].
    rewrite !dom_insert_L. set_solver.
Qed.

(** ** The token builders *)

(** Unfolds the monadic plumbing of an [async] function. *)
Ltac unfold_M :=
  unfold mbind, mret, M_bind, M_ret, outcome_bind, outcome_ret, lift in *.

Lemma bind_run {A B : Type} (m : M A) (f : A -> M B) (log : list BatchCall) :
  (m ≫= f) log
  = match m log with
    | (Ok a, log') => f a log'
    | (Raise e, log') => (Raise e, log')
    end.
Proof. reflexivity. Qed.

(** Runs the first step of the [async] functions in the goal, and splits
    on how it settles. *)
Ltac run_step :=
  lazymatch goal with
  | |- context [@mbind _ _ _ _ ?f ?m ?log] =>
      rewrite !bind_run; destruct (m log) as [[?|?] ?] eqn:?;
      repeat match goal with x : (_ * _)%type |- _ => destruct x end;
      cbv beta iota
  end.

Section BuilderFacts.
Variable W : World.

Lemma multicallOneContractQuery_log chain contractAddress abi calls log :
  (multicallOneContractQuery W chain contractAddress abi calls log).2
  = log ++ [oneContractCall chain contractAddress abi calls].
Proof.
  unfold multicallOneContractQuery, multicallQuery. unfold_M.
  repeat case_match; simplify_eq; reflexivity.
Qed.

Lemma findTokenInfo_native chain address log :
  toLowerCase address = defaultAddress ->
  findTokenInfo W chain address log
  = (Ok (getNativeTokenSymbol chain, 18,
         getTokenLogo W chain (getNativeTokenSymbol chain)), log).
Proof. intros H. unfold findTokenInfo. rewrite H. reflexivity. Qed.

Lemma findTokenInfo_tracked chain address log td :
  toLowerCase address <> defaultAddress ->
  getTrackedTokenInfo W chain address = Some td ->
  findTokenInfo W chain address log = (Ok (td_symbol td, td_decimals td, td_logo td), log).
Proof.
  intros Hne Htd. unfold findTokenInfo.
  apply String.eqb_neq in Hne. rewrite Hne, Htd. reflexivity.
Qed.

Lemma findTokenInfo_log_hit chain address log :
  is_Some (getTrackedTokenInfo W chain address) ->
  (findTokenInfo W chain address log).2 = log.
Proof.
  intros [td Htd]. unfold findTokenInfo. rewrite Htd.
  destruct (String.eqb _ _); reflexivity.
Qed.

Lemma findTokenInfo_log_miss chain address log :
  toLowerCase address <> defaultAddress ->
  getTrackedTokenInfo W chain address = None ->
  (findTokenInfo W chain address log).2
  = log ++ [oneContractCall chain address minABI metadataCalls].
Proof.
  intros Hne Htd. unfold findTokenInfo.
  apply String.eqb_neq in Hne. rewrite Hne, Htd.
  pose proof (multicallOneContractQuery_log chain address minABI metadataCalls log) as Hlog.
  unfold_M.
  destruct (multicallOneContractQuery W chain address minABI metadataCalls log)
    as [[results|e] log']; cbn in Hlog; subst log'; [|reflexivity].
  repeat case_match; reflexivity.
Qed.

Lemma addToken_run chain location status address rawBalance owner log :
  addToken W chain location status address rawBalance owner log
  = resolved_with
      (fun '(symbol, decimals, logo) =>
         {| tk_type := ty_token; tk_chain := chain; tk_location := location;
            tk_status := status; tk_owner := owner; tk_symbol := symbol;
            tk_address := address; tk_balance := (rawBalance / pow10 decimals)%Q;
            tk_price := getTokenPrice W chain address decimals; tk_logo := logo |})
      (findTokenInfo W chain address log).
Proof.
  unfold addToken, resolved_with. unfold_M.
  destruct (findTokenInfo W chain address log) as [[[[s d] l]|e] log']; reflexivity.
Qed.

Lemma addDebtToken_run chain location address rawBalance owner log :
  addDebtToken W chain location address rawBalance owner log
  = resolved_with
      (fun '(symbol, decimals, logo) =>
         {| tk_type := ty_debt; tk_chain := chain; tk_location := location;
            tk_status := st_borrowed; tk_owner := owner; tk_symbol := symbol;
            tk_address := address; tk_balance := (rawBalance / pow10 decimals)%Q;
            tk_price := getTokenPrice W chain address decimals; tk_logo := logo |})
      (findTokenInfo W chain address log).
Proof.
  unfold addDebtToken, resolved_with. unfold_M.
  destruct (findTokenInfo W chain address log) as [[[[s d] l]|e] log']; reflexivity.
Qed.
End BuilderFacts.

(** C4 (as amended). When the catalogue has an entry for (chain, address),
    [addToken] and [addDebtToken] issue no batch call, and for an address
    other than the native sentinel they take the symbol, the decimals and
    the logo of that entry. On a catalogue miss, for an address other than
    the sentinel, they issue exactly one many-methods-one-contract batch
    call, for [symbol] and [decimals]. The sentinel address is settled
    before the catalogue is looked at and issues no batch call either. *)
Theorem catalogue_entry_wins W chain location status address rawBalance owner log :
  (forall td, getTrackedTokenInfo W chain address = Some td ->
     (addToken W chain location status address rawBalance owner log).2 = log /\
     (addDebtToken W chain location address rawBalance owner log).2 = log /\
     (toLowerCase address <> defaultAddress ->
      addToken W chain location status address rawBalance owner log
      = (Ok {| tk_type := ty_token; tk_chain := chain; tk_location := location;
               tk_status := status; tk_owner := owner; tk_symbol := td_symbol td;
               tk_address := address;
               tk_balance := (rawBalance / pow10 (td_decimals td))%Q;
               tk_price := getTokenPrice W chain address (td_decimals td);
               tk_logo := td_logo td |}, log) /\
      addDebtToken W chain location address rawBalance owner log
      = (Ok {| tk_type := ty_debt; tk_chain := chain; tk_location := location;
               tk_status := st_borrowed; tk_owner := owner; tk_symbol := td_symbol td;
               tk_address := address;
               tk_balance := (rawBalance / pow10 (td_decimals td))%Q;
               tk_price := getTokenPrice W chain address (td_decimals td);
               tk_logo := td_logo td |}, log))) /\
  (getTrackedTokenInfo W chain address = None ->
   toLowerCase address <> defaultAddress ->
   (addToken W chain location status address rawBalance owner log).2
   = log ++ [oneContractCall chain address minABI metadataCalls] /\
   (addDebtToken W chain location address rawBalance owner log).2
   = log ++ [oneContractCall chain address minABI metadataCalls]) /\
  (toLowerCase address = defaultAddress ->
   (addToken W chain location status address rawBalance owner log).2 = log /\
   (addDebtToken W chain location address rawBalance owner log).2 = log).
Proof.
  rewrite addToken_run, addDebtToken_run. unfold resolved_with. cbn [snd].
  split; [|split].
  - intros td Htd.
    rewrite findTokenInfo_log_hit by (rewrite Htd; eauto).
    split; [reflexivity|]. split; [reflexivity|].
    intros Hne. rewrite (findTokenInfo_tracked W chain address log td Hne Htd).
    split; reflexivity.
  - intros Hmiss Hne. rewrite findTokenInfo_log_miss by assumption. split; reflexivity.
  - intros Hnative. rewrite findTokenInfo_native by assumption. split; reflexivity.
Qed.

Lemma catalogue_entry_wins_witness :
  getTrackedTokenInfo world_avax "avax" (toUpperCase joe) = Some joe_entry /\
  toLowerCase (toUpperCase joe) <> defaultAddress /\
  addToken world_avax "avax" "wallet" st_none (toUpperCase joe) 2500000000000000000
           "0xowner" []
  = (Ok {| tk_type := ty_token; tk_chain := "avax"; tk_location := "wallet";
           tk_status := st_none; tk_owner := "0xowner"; tk_symbol := "JOE";
           tk_address := toUpperCase joe;
           tk_balance := (2500000000000000000 / pow10 18)%Q;
           tk_price := None; tk_logo := "joe.png" |}, []) /\
  getTrackedTokenInfo world_avax "avax" usdc = None /\
  (addDebtToken world_avax "avax" "aave" usdc 7000000 "0xowner" []).2
  = [oneContractCall "avax" usdc minABI metadataCalls].
Proof.
  pose proof (catalogue_entry_wins world_avax "avax" "wallet" st_none (toUpperCase joe)
                2500000000000000000 "0xowner" []) as [Hhit _].
  pose proof (catalogue_entry_wins world_avax "avax" "aave" st_borrowed usdc
                7000000 "0xowner" []) as (_ & Hmiss & _).
  split; [reflexivity|]. split; [discriminate|].
  split; [exact (proj1 (proj2 (proj2 (Hhit joe_entry eq_refl)) ltac:(discriminate)))|].
  split; [reflexivity|].
  exact (proj2 (Hmiss eq_refl ltac:(discriminate))).
Defined.

(** C4 (as stated) fails for the native sentinel: were it listed in the
    catalogue, [addToken] would still take the symbol from the native
    table, 18 decimals and the logo found by symbol. *)
Lemma sentinel_entry_is_not_used :
  getTrackedTokenInfo world_sentinel_listed "eth" defaultAddress = Some sentinel_entry /\
  exists t,
    addToken world_sentinel_listed "eth" "wallet" st_none defaultAddress 1000000
             "0xowner" [] = (Ok t, []) /\
    tk_symbol t = "ETH" /\ tk_symbol t <> td_symbol sentinel_entry /\
    tk_logo t = defaultTokenLogo /\ tk_logo t <> td_logo sentinel_entry /\
    (tk_balance t == 1000000 / pow10 18)%Q /\
    ~ (tk_balance t == 1000000 / pow10 (td_decimals sentinel_entry))%Q.
Proof.
  split; [reflexivity|]. eexists. split; [reflexivity|].
  cbn [tk_symbol tk_logo tk_balance].
  repeat split; try reflexivity; discriminate.
Qed.

(** C6 (the code at two failing inputs). [addXToken] looks up the catalogue
    with the derivative token's own address. (1) xJOE is not tracked and
    its underlying JOE is: a second batch call is issued, against JOE's
    contract, although the catalogue has JOE. (2) qiUSDC (8 decimals) is
    tracked and its underlying, the 6-decimal USDC, is not: no batch call
    is issued against USDC, and the underlying record gets qiUSDC's symbol,
    logo and decimals, hence a balance of raw / 10^8 instead of raw / 10^6. *)
Theorem addXToken_looks_up_the_derivative_address :
  (getTrackedTokenInfo world_avax "avax" joe = Some joe_entry /\
   (addXToken world_avax "avax" "traderjoe" st_staked xjoe 5000000000000000000
              "0xowner" joe 6000000000000000000 []).2
   = [ oneContractCall "avax" xjoe minABI metadataCalls;
       oneContractCall "avax" joe minABI metadataCalls ]) /\
  (getTrackedTokenInfo world_avax "avax" usdc = None /\
   exists x,
     addXToken world_avax "avax" "benqi" st_lent qiusdc 500000000
               "0xowner" usdc 6000000 []
     = (Ok x, [ oneContractCall "avax" qiusdc minABI metadataCalls ]) /\
     pt_address (x_underlyingToken x) = usdc /\
     pt_symbol (x_underlyingToken x) = "qiUSDC" /\
     pt_logo (x_underlyingToken x) = "qiusdc.png" /\
     pt_balance (x_underlyingToken x) = (6000000 / pow10 8)%Q /\
     ~ (pt_balance (x_underlyingToken x) == 6000000 / pow10 6)%Q).
Proof.
  split.
  - split; reflexivity.
  - split; [reflexivity|]. eexists. split; [reflexivity|].
    cbn [x_underlyingToken pt_address pt_symbol pt_logo pt_balance].
    repeat split; try reflexivity. vm_compute. discriminate.
Qed.


(** ** Normalised balances *)

Lemma pow10_pos (decimals : Z) : (0 < pow10 decimals)%Q.
Proof. unfold pow10. apply Qpower_0_lt. reflexivity. Qed.

Lemma pow10_nonzero (decimals : Z) : ~ (pow10 decimals == 0)%Q.
Proof. intros H. pose proof (pow10_pos decimals) as Hp. rewrite H in Hp. discriminate. Qed.

Lemma lift_run {A : Type} (o r : outcome A) (log log' : list BatchCall) :
  lift o log = (r, log') -> o = r /\ log' = log.
Proof. unfold lift. intros [= -> ->]. split; reflexivity. Qed.

Lemma first_as_uint8 (results : gmap string (list jsval)) (key : string) (d : Z) :
  first_of results key ≫= as_uint8 = Ok d ->
  first_of results key = Ok (VNum (inject_Z d)).
Proof.
  unfold mbind, outcome_bind. destruct (first_of results key) as [v|e]; [|discriminate].
  destruct v as [| | |[n [p|p|]]| |]; cbn; try discriminate.
  intros [= ->]. reflexivity.
Qed.

Lemma first_parseBN (results : gmap string (list jsval)) (key : string) (q : Q) :
  first_of results key ≫= parseBN = Ok q ->
  exists z, first_of results key = Ok (VBig z) /\ q = inject_Z z.
Proof.
  unfold mbind, outcome_bind. destruct (first_of results key) as [v|e]; [|discriminate].
  destruct v; cbn; try discriminate. intros [= <-]. eauto.
Qed.

Lemma reserve_of_resolved (lpTokenReserves : option (list jsval)) (i : nat) (q : Q) :
  reserve_of lpTokenReserves i = Ok q ->
  exists reserves z,
    lpTokenReserves = Some reserves /\ reserves !! i = Some (VBig z) /\ q = inject_Z z.
Proof.
  unfold reserve_of. destruct lpTokenReserves as [reserves|]; [|discriminate].
  destruct (reserves !! i) as [v|] eqn:Hi; cbn; [|discriminate].
  destruct v; cbn; try discriminate. intros [= <-]. eauto.
Qed.

(** The proportional share, in raw quantities. *)
Lemma share_of_raw (reserve rawBalance totalSupply p p0 : Q) :
  ~ (totalSupply == 0)%Q -> ~ (p == 0)%Q -> ~ (p0 == 0)%Q ->
  (reserve / p0 * (rawBalance / p / (totalSupply / p))
   == reserve * rawBalance / totalSupply / p0)%Q.
Proof. intros Ht Hp Hp0. field. repeat split; assumption. Qed.

(** The whole supply is a share of one. *)
Lemma share_of_whole_supply (share rawBalance totalSupply p : Q) :
  ~ (totalSupply == 0)%Q -> ~ (p == 0)%Q -> (rawBalance == totalSupply)%Q ->
  (share * (rawBalance / p / (totalSupply / p)) == share)%Q.
Proof. intros Ht Hp ->. field. split; assumption. Qed.

Lemma inject_Z_nonzero (z : Z) : z <> 0 -> ~ (inject_Z z == 0)%Q.
Proof. intros Hz H. apply Hz. unfold Qeq in H. cbn in H. lia. Qed.

Lemma addLPToken_resolved W chain location status address rawBalance owner log :
  match addLPToken W chain location status address rawBalance owner log with
  | (Ok lp, _) => lp_decomposition W chain address rawBalance log lp
  | (Raise _, _) => True
  end.
Proof.
  unfold addLPToken.
  repeat (run_step; [|exact I]).
  unfold mret, M_ret. cbv beta iota.
  repeat match goal with
         | H : lift _ _ = _ |- _ => apply lift_run in H; destruct H as [H ->]
         end.
  repeat match goal with
         | H : _ ≫= as_uint8 = _ |- _ => apply first_as_uint8 in H
         | H : _ ≫= parseBN = _ |- _ => apply first_parseBN in H; destruct H as (? & H & ->)
         | H : reserve_of _ _ = _ |- _ =>
             apply reserve_of_resolved in H; destruct H as (? & ? & ? & ? & ->)
         end.
  simplify_eq.
  unfold lp_decomposition. cbn [lp_balance lp_token0 lp_token1 pt_balance pt_price pt_address].
  do 8 eexists.
  split; [match goal with H : multicallOneContractQuery _ _ _ _ _ _ = _ |- _ =>
            rewrite H end; reflexivity|].
  do 5 (split; [eassumption|]).
  do 2 (split; [reflexivity|]). cbv zeta.
  do 3 (split; [reflexivity|]).
  split.
  - intros Hts. split; apply share_of_raw;
      auto using inject_Z_nonzero, pow10_nonzero.
  - intros Hts Hall. split; apply share_of_whole_supply;
      auto using inject_Z_nonzero, pow10_nonzero.
Qed.




(** C3. Every record [addLPToken] resolves with has underlying balances
    share_i = reserve_i x (holderLPBalance / totalSupply), i = 0, 1, all
    decimal-normalised; when the raw total supply is not zero and the
    holder has all of it, the shares are the normalised reserves. With
    reserves 1000 and 2000, total supply 100 and a holder balance of 10
    the shares are 100 and 200; with a holder balance of 100 they are 1000
    and 2000. *)
Theorem lp_shares_follow_the_reserves :
  (forall W chain location status address rawBalance owner log lp log',
     addLPToken W chain location status address rawBalance owner log = (Ok lp, log') ->
     lp_decomposition W chain address rawBalance log lp) /\
  (exists lp log',
     addLPToken world_pair "avax" "traderjoe" st_staked pair 10000000000000000000
                "0xowner" [] = (Ok lp, log') /\
     (lp_balance lp == 10)%Q /\
     (pt_balance (lp_token0 lp) == 100)%Q /\ (pt_balance (lp_token1 lp) == 200)%Q) /\
  (exists lp log',
     addLPToken world_pair "avax" "traderjoe" st_staked pair 100000000000000000000
                "0xowner" [] = (Ok lp, log') /\
     (lp_balance lp == 100)%Q /\
     (pt_balance (lp_token0 lp) == 1000)%Q /\ (pt_balance (lp_token1 lp) == 2000)%Q).
Proof.
  split; [|split].
  - intros W chain location status address rawBalance owner log lp log' Hrun.
    pose proof (addLPToken_resolved W chain location status address rawBalance owner log)
      as H.
    rewrite Hrun in H. exact H.
  - eexists _, _. split; [vm_compute; reflexivity|].
    cbn [lp_balance lp_token0 lp_token1 pt_balance]. repeat split; reflexivity.
  - eexists _, _. split; [vm_compute; reflexivity|].
    cbn [lp_balance lp_token0 lp_token1 pt_balance]. repeat split; reflexivity.
Qed.

Lemma lp_shares_follow_the_reserves_witness :
  exists lp log',
    addLPToken world_pair "avax" "traderjoe" st_staked pair 10000000000000000000
               "0xowner" [] = (Ok lp, log') /\
    lp_decomposition world_pair "avax" pair 10000000000000000000 [] lp.
Proof.
  eexists _, _. split; [vm_compute; reflexivity|].
  eapply (proj1 lp_shares_follow_the_reserves world_pair "avax" "traderjoe" st_staked
           pair 10000000000000000000%Q "0xowner" [] _ _).
  vm_compute. reflexivity.
Defined.



(** The numeric examples of the builders on IEEE doubles, with the raw
    quantities of [world_pair]: the results are the same as over the
    rationals. *)
Lemma examples_in_binary64 :
  normalised_binary64 1500000000000000000 18 = 1.5%float /\
  share_binary64 (normalised_binary64 1000000000000000000000 18)
                 (normalised_binary64 10000000000000000000 18)
                 (normalised_binary64 100000000000000000000 18) = 100%float /\
  share_binary64 (normalised_binary64 2000000000 6)
                 (normalised_binary64 10000000000000000000 18)
                 (normalised_binary64 100000000000000000000 18) = 200%float /\
  share_binary64 (normalised_binary64 1000000000000000000000 18)
                 (normalised_binary64 100000000000000000000 18)
                 (normalised_binary64 100000000000000000000 18) = 1000%float /\
  share_binary64 (normalised_binary64 2000000000 6)
                 (normalised_binary64 100000000000000000000 18)
                 (normalised_binary64 100000000000000000000 18) = 2000%float.
Proof. repeat split; vm_compute; reflexivity. Qed.

(** ** Concurrent branches and the [axial] adapter *)

Lemma interleave_perm {A : Type} (sched : list nat) (pending : list (list A)) :
  interleave sched pending ≡ₚ concat pending.
Proof.
  revert pending. induction sched as [|i sched IH]; intros pending; cbn [interleave].
  - reflexivity.
  - destruct (pending !! i) as [[|x rest]|] eqn:Hi; try apply IH.
    rewrite IH.
    rewrite <- (take_drop_middle pending i (x :: rest) Hi) at 2.
    rewrite insert_take_drop by (eapply lookup_lt_Some, Hi).
    rewrite !concat_app. cbn [concat app].
    apply Permutation_middle.
Qed.

Lemma settled_raise {A : Type} (branches : list (outcome (list A))) (j : nat) (e : exn) :
  branches !! j = Some (Raise e) -> exists e', settled branches = Raise e'.
Proof.
  revert j. induction branches as [|b branches IH]; intros j Hj; [discriminate|].
  destruct b as [pushed|e0]; cbn [settled]; [|eauto].
  destruct j as [|j]; [discriminate|].
  destruct (IH j Hj) as [e' ->]. eauto.
Qed.

Lemma settled_all {A : Type} (pushed : list (list A)) :
  settled (map Ok pushed) = Ok pushed.
Proof.
  induction pushed as [|l pushed IH]; cbn [map settled]; [reflexivity|].
  rewrite IH. reflexivity.
Qed.

Lemma settled_resolved {A : Type} (branches : list (outcome (list A)))
    (pushed : list (list A)) :
  settled branches = Ok pushed -> branches = map Ok pushed.
Proof.
  revert pushed. induction branches as [|b branches IH]; intros pushed; cbn [settled].
  - intros [= <-]. reflexivity.
  - destruct b as [l|e]; [|discriminate].
    destruct (settled branches) as [others|e]; [|discriminate].
    intros [= <-]. cbn [map]. rewrite (IH others eq_refl). reflexivity.
Qed.

Lemma promiseAll_raise {A : Type} (sched : list nat) (branches : list (outcome (list A)))
    (j : nat) (e : exn) :
  branches !! j = Some (Raise e) -> exists e', promiseAll sched branches = Raise e'.
Proof.
  intros Hj. unfold promiseAll. destruct (settled_raise branches j e Hj) as [e' ->]. eauto.
Qed.

(** C8 (as amended). When the branch of some pool rejects, [Promise.all]
    rejects, [get] catches the rejection and returns an empty array: the
    failing branch contributes nothing, and neither do its siblings. [get]
    itself never rejects; it also returns an empty array when the pool
    count cannot be read, and when every branch resolves it returns what
    all the branches pushed, in the order of the pushes. *)
Theorem get_returns_nothing_when_a_branch_rejects
    (poolLength : outcome nat) (poolBranch : nat -> outcome (list Holding))
    (sched : list nat) :
  (forall poolCount j e,
     poolLength = Ok poolCount -> (j < poolCount)%nat -> poolBranch j = Raise e ->
     get poolLength poolBranch sched = []) /\
  (forall e, poolLength = Raise e -> get poolLength poolBranch sched = []) /\
  (forall poolCount pushed,
     poolLength = Ok poolCount ->
     (forall j, (j < poolCount)%nat -> poolBranch j = Ok (pushed j)) ->
     get poolLength poolBranch sched ≡ₚ concat (map pushed (seq 0 poolCount))).
Proof.
  unfold get, getPoolBalances. split; [|split].
  - intros poolCount j e -> Hj Hraise. cbn.
    destruct (promiseAll_raise sched (map poolBranch (seq 0 poolCount)) j e) as [e' ->];
      [|reflexivity].
    rewrite list_lookup_fmap. rewrite lookup_seq_lt by exact Hj. cbn. f_equal. exact Hraise.
  - intros e ->. reflexivity.
  - intros poolCount pushed -> Hall. cbn.
    assert (Hmap : map poolBranch (seq 0 poolCount) = map Ok (map pushed (seq 0 poolCount))).
    { rewrite map_map. apply map_ext_in. intros j Hj. apply Hall.
      apply in_seq in Hj. lia. }
    unfold promiseAll. rewrite Hmap, settled_all. cbn. apply interleave_perm.
Qed.

Lemma get_returns_nothing_when_a_branch_rejects_witness :
  get (Ok 2%nat) second_pool_rejects [0%nat; 1%nat] = [] /\
  get (Ok 1%nat) second_pool_rejects [0%nat] ≡ₚ [staked_joe].
Proof.
  pose proof (get_returns_nothing_when_a_branch_rejects (Ok 2%nat) second_pool_rejects
                [0%nat; 1%nat]) as (Hraise & _ & _).
  pose proof (get_returns_nothing_when_a_branch_rejects (Ok 1%nat) second_pool_rejects
                [0%nat]) as (_ & _ & Hall).
  split.
  - exact (Hraise 2%nat 1%nat _ eq_refl ltac:(lia) eq_refl).
  - refine (Hall 1%nat (fun _ => [staked_joe]) eq_refl _).
    intros [|j] Hj; [reflexivity|lia].
Defined.

(** C8 (as stated) fails: of two pool branches, the first pushes a record
    and the second rejects; under every order of the pushes [get] returns
    an empty array, not the record of the first branch. *)
Lemma rejecting_branch_discards_its_siblings :
  second_pool_rejects 0 = Ok [staked_joe] /\
  (exists e, second_pool_rejects 1 = Raise e) /\
  (forall sched, get (Ok 2%nat) second_pool_rejects sched = []) /\
  (forall sched, ~ (get (Ok 2%nat) second_pool_rejects sched ≡ₚ [staked_joe])).
Proof.
  assert (Hget : forall sched, get (Ok 2%nat) second_pool_rejects sched = [])
    by (intros sched; reflexivity).
  split; [reflexivity|]. split; [eexists; reflexivity|]. split; [exact Hget|].
  intros sched Hperm. rewrite Hget in Hperm.
  apply Permutation_length in Hperm. discriminate.
Qed.

(** ** The wallet scan *)

Section WalletFacts.
Variable W : World.
Variable getBalance : nat -> option string -> option Z.
Variable sched : list nat.

Lemma native_loop_answered chain fuel n s s' :
  answered getBalance s ->
  native_loop W getBalance chain fuel n s = Some s' -> answered getBalance s'.
Proof.
  revert n s. induction fuel as [|fuel IH]; intros n s Hs; cbn [native_loop].
  - destruct (native_cond s); [discriminate|]. intros [= <-]. exact Hs.
  - destruct (native_cond s); [|intros [= <-]; exact Hs].
    apply IH. unfold answered, native_body.
    destruct (getBalance n _) as [z|] eqn:Hz; cbn [n_balance]; [eauto|].
    destruct (_ <=? _)%nat; exact Hs.
Qed.

Lemma positive_balance (q : Q) : negb (Qle_bool q 0) = true -> (0 < q)%Q.
Proof.
  intros H. apply negb_true_iff in H. apply Qnot_le_lt. intros Hle.
  apply Qle_bool_iff in Hle. congruence.
Qed.

Lemma normalised_positive (q : Q) (decimals : Z) : (0 < q)%Q -> (0 < q / pow10 decimals)%Q.
Proof.
  intros Hq. unfold Qdiv. apply Qmult_lt_0_compat; [exact Hq|].
  apply Qinv_lt_0_compat, pow10_pos.
Qed.

Lemma inject_Z_positive (z : Z) : (0 < inject_Z z)%Q <-> 0 < z.
Proof. change 0%Q with (inject_Z 0). rewrite <- Zlt_Qlt. reflexivity. Qed.

Lemma getWalletNativeTokenBalance_records fuel chain wallet records t :
  getWalletNativeTokenBalance W getBalance fuel chain wallet = Some records ->
  t ∈ records ->
  (0 < tk_balance t)%Q /\ scanned_native W getBalance chain wallet t.
Proof.
  unfold getWalletNativeTokenBalance.
  destruct (native_loop _ _ _ _ _ _) as [s|] eqn:Hloop; [|discriminate].
  apply native_loop_answered in Hloop; [|exact I].
  unfold answered in Hloop.
  destruct (n_balance s) as [q|]; [|intros [= <-] Ht; inversion Ht].
  destruct Hloop as (z & n & endpoint & Hz & ->).
  destruct (negb (Qeq_bool (inject_Z z) 0) && negb (Qle_bool (inject_Z z) 0)) eqn:Hpos;
    [|intros [= <-] Ht; inversion Ht].
  intros [= <-] Ht. apply list_elem_of_singleton in Ht. subst t.
  apply andb_true_iff in Hpos. destruct Hpos as [_ Hpos]. apply positive_balance in Hpos.
  split.
  - cbn [addNativeToken tk_balance]. apply normalised_positive, Hpos.
  - exists z, n, endpoint.
    split; [exact Hz|]. split; [apply inject_Z_positive, Hpos|reflexivity].
Qed.

Lemma promiseAll_pushed {A : Type} (branches : list (outcome (list A)))
    (records : list A) (x : A) :
  promiseAll sched branches = Ok records -> x ∈ records ->
  exists pushed, Ok pushed ∈ branches /\ x ∈ pushed.
Proof.
  unfold promiseAll. destruct (settled branches) as [ls|e] eqn:Hs; [|discriminate].
  intros [= <-] Hx. rewrite interleave_perm in Hx.
  apply list_elem_of_In, in_concat in Hx. destruct Hx as (pushed & Hin & Hx).
  exists pushed. split; [|apply list_elem_of_In, Hx].
  rewrite (settled_resolved _ _ Hs). apply list_elem_of_In, in_map, Hin.
Qed.

Lemma multicallOneMethodQuery_resolved chain contracts abi methodName methodParameters
    log results log' :
  multicallOneMethodQuery W chain contracts abi methodName methodParameters log
  = (Ok results, log') ->
  exists res,
    multicallCall W chain
      (map (fun contract =>
              {| cc_reference := contract; contractAddress := contract; abi := abi;
                 calls := [ {| reference := ""; methodName := methodName;
                               methodParameters := methodParameters |} ] |}) contracts)
    = Some res /\
    oneMethodResults res contracts ∅ = Ok results.
Proof.
  unfold multicallOneMethodQuery, multicallQuery. rewrite bind_run.
  destruct (multicallCall W chain _) as [res|]; [|discriminate].
  unfold lift. intros [= H _]. eauto.
Qed.

Lemma walletTokenBranch_pushed chain wallet multicallResults token pushed t :
  walletTokenBranch W chain wallet multicallResults token = Ok pushed -> t ∈ pushed ->
  exists balanceResults z,
    multicallResults !! td_address token = Some balanceResults /\
    balanceResults !! 0%nat = Some (VBig z) /\ 0 < z /\
    t = addTrackedToken W chain "wallet" st_none token (inject_Z z) wallet.
Proof.
  unfold walletTokenBranch.
  destruct (multicallResults !! td_address token) as [balanceResults|];
    [|intros [= <-] Ht; inversion Ht].
  unfold mbind, outcome_bind.
  destruct (balanceResults !! 0%nat) as [v|] eqn:Hv; simpl; [|discriminate].
  destruct v as [| | | | |z]; simpl; try discriminate.
  destruct (negb (Qle_bool (inject_Z z) 0)) eqn:Hpos; [|intros [= <-] Ht; inversion Ht].
  intros [= <-] Ht. apply list_elem_of_singleton in Ht. subst t.
  exists balanceResults, z.
  split; [reflexivity|]. split; [exact Hv|]. split; [|reflexivity].
  apply inject_Z_positive, positive_balance, Hpos.
Qed.

Lemma getWalletTokenBalance_records chain wallet log records log' t :
  getWalletTokenBalance W sched chain wallet log = (Ok records, log') ->
  t ∈ records ->
  (0 < tk_balance t)%Q /\ scanned_tracked W chain wallet t.
Proof.
  unfold getWalletTokenBalance.
  destruct (getChainTokenData W chain) as [data|] eqn:Hdata;
    [|intros [= <- _] Ht; inversion Ht].
  rewrite bind_run.
  destruct (multicallOneMethodQuery W chain _ _ _ _ log) as [[multicallResults|e] log1]
    eqn:Hquery; [|discriminate].
  apply multicallOneMethodQuery_resolved in Hquery. destruct Hquery as (res & Hres & Hone).
  unfold lift. intros [= Hall _] Ht.
  destruct (promiseAll_pushed _ _ _ Hall Ht) as (pushed & Hbranch & Hpushed).
  apply list_elem_of_fmap in Hbranch. destruct Hbranch as (token & Hbranch & Htoken).
  symmetry in Hbranch.
  destruct (walletTokenBranch_pushed _ _ _ _ _ _ Hbranch Hpushed)
    as (balanceResults & z & Hlookup & Hfirst & Hz & ->).
  split.
  - cbn [addTrackedToken tk_balance]. apply normalised_positive.
    apply inject_Z_positive, Hz.
  - destruct (oneMethodResults_lookup _ _ _ _ _ _ Hone Hlookup)
      as [Hempty|(cr & rest & Hcr & Hsuccess & <-)]; [discriminate|].
    exists data, token, res, cr, rest, z.
    split; [exact Hdata|]. split; [exact Htoken|]. split; [exact Hres|].
    split; [exact Hcr|]. split; [exact Hsuccess|]. split; [exact Hfirst|].
    split; [exact Hz|reflexivity].
Qed.
End WalletFacts.

(** The native-balance loop shares the truthiness test of [query]: while
    the endpoint answers a balance of zero the loop asks again, and the scan
    does not return. *)
Lemma native_scan_repeats_on_zero_balance (fuel : nat) :
  getWalletNativeTokenBalance world_wallet empty_wallet fuel "avax" "0xowner" = None.
Proof.
  unfold getWalletNativeTokenBalance.
  assert (Hloop : forall n s,
             native_cond s = true -> n_errors s = 0%nat ->
             native_loop world_wallet empty_wallet "avax" fuel n s = None).
  { induction fuel as [|fuel IH]; intros n s Hcond Herr; cbn [native_loop]; rewrite Hcond;
      [reflexivity|].
    apply IH; [|exact Herr].
    unfold native_cond, native_body, empty_wallet. cbn [n_balance n_errors].
    rewrite Herr. reflexivity. }
  rewrite Hloop; reflexivity.
Qed.

(** C10. Whatever the endpoints, the helper and the order of the pushes,
    every record [getWalletBalance] returns has a strictly positive
    balance; it is either the native record, built from a strictly positive
    balance that an endpoint answered, or the record of a tracked token
    whose [balanceOf] call succeeded in the batch with a strictly positive
    result. *)
Theorem wallet_scan_has_no_zero_balance W getBalance sched fuel chain wallet scan log
    records log' t :
  getWalletBalance W getBalance sched fuel chain wallet = Some scan ->
  scan log = (Ok records, log') ->
  t ∈ records ->
  (0 < tk_balance t)%Q /\
  (scanned_native W getBalance chain wallet t \/ scanned_tracked W chain wallet t).
Proof.
  unfold getWalletBalance.
  destruct (getWalletNativeTokenBalance W getBalance fuel chain wallet) as [native|]
    eqn:Hnative; [|discriminate].
  intros [= <-]. rewrite bind_run.
  destruct (getWalletTokenBalance W sched chain wallet log) as [[walletTokens|e] log1]
    eqn:Htokens; [|discriminate].
  intros [= <- _] Ht. apply elem_of_app in Ht. destruct Ht as [Ht|Ht].
  - destruct (getWalletNativeTokenBalance_records _ _ _ _ _ _ _ Hnative Ht) as [Hpos Hrec].
    split; [exact Hpos|left; exact Hrec].
  - destruct (getWalletTokenBalance_records _ _ _ _ _ _ _ _ Htokens Ht) as [Hpos Hrec].
    split; [exact Hpos|right; exact Hrec].
Qed.

Lemma wallet_scan_has_no_zero_balance_witness :
  exists scan native joeToken,
    getWalletBalance world_wallet second_endpoint_answers [] 2 "avax" "0xowner" = Some scan /\
    (scan []).1 = Ok [native; joeToken] /\
    tk_symbol native = "AVAX" /\ tk_symbol joeToken = "JOE" /\
    (0 < tk_balance joeToken)%Q /\
    (scanned_native world_wallet second_endpoint_answers "avax" "0xowner" joeToken \/
     scanned_tracked world_wallet "avax" "0xowner" joeToken).
Proof.
  eexists _, _, _. split; [reflexivity|]. split; [vm_compute; reflexivity|].
  split; [reflexivity|]. split; [reflexivity|].
  eapply (wallet_scan_has_no_zero_balance world_wallet second_endpoint_answers []
            2 "avax" "0xowner" _ [] _ _ _ eq_refl).
  - vm_compute. reflexivity.
  - apply list_elem_of_In. right. left. reflexivity.
Defined.

(** ** More on the failover query executor *)

Section QueryOrder.
Variable chains : string -> ChainData.
Variable respond : nat -> option string -> attempt.
Variables (chain address method : string) (args : list jsval).

Local Abbreviation k := (length (rpcs (chains chain))).

Lemma in_pass_endpoint (s : QueryState) :
  in_pass k s -> q_rpcID s = (q_attempts s mod k)%nat.
Proof.
  intros (_ & _ & Hid & Hatt). rewrite Hatt.
  rewrite Nat.add_comm, Nat.Div0.mod_add. symmetry. apply Nat.mod_small, Hid.
Qed.

Lemma query_loop_first_answer (n : nat) (v : jsval) (m fuel : nat) (s : QueryState) :
  (n < k * maxQueryRetries)%nat ->
  (forall j, (j < n)%nat -> respond j (rpcs (chains chain) !! (j mod k)%nat) = Rejects) ->
  respond n (rpcs (chains chain) !! (n mod k)%nat) = Resolves v ->
  truthy v = true ->
  in_pass k s -> (n - q_attempts s = m)%nat -> (q_attempts s <= n)%nat -> (m < fuel)%nat ->
  query_loop chains respond chain address method args fuel s = Returned v (S n).
Proof.
  intros Hn Hrej Hres Hv. revert fuel s.
  induction m as [|m IH]; intros fuel s Hin Hm Hle Hfuel;
    (destruct fuel as [|fuel]; [lia|]);
    rewrite query_loop_step by (apply (in_pass_cond chains chain), Hin);
    pose proof (in_pass_endpoint s Hin) as Hid;
    unfold query_body; rewrite Hid.
  - assert (q_attempts s = n) as -> by lia. rewrite Hres.
    rewrite query_loop_stop by (unfold query_cond; cbn [q_result]; rewrite Hv; reflexivity).
    reflexivity.
  - rewrite Hrej by lia. cbv zeta. rewrite <- Hid.
    destruct Hin as (Hr & Herr & Hlt & Hatt).
    destruct (Nat.leb_spec k (S (q_rpcID s))) as [Hlast|Hmore].
    + destruct (Nat.leb_spec maxQueryRetries (S (q_errors s))) as [Hdone|Hpass].
      * exfalso. unfold maxQueryRetries in *. nia.
      * apply IH; cbn [q_attempts]; try lia.
        unfold in_pass, maxQueryRetries in *. cbn. repeat split; try assumption; nia.
    + apply IH; cbn [q_attempts]; try lia.
      unfold in_pass, maxQueryRetries in *. cbn. repeat split; try assumption; lia.
Qed.

(** What the loop keeps whatever the attempts do: an error is counted
    only after a failed attempt, and the limit is reached only by a call
    the suppression list covers (any other call throws at that point). *)
Lemma query_loop_outcome (fuel : nat) (s : QueryState) :
  (q_errors s <= q_attempts s)%nat ->
  (q_errors s < maxQueryRetries)%nat \/ isIgnored chain address = true ->
  match query_loop chains respond chain address method args fuel s with
  | Raised e n =>
      isIgnored chain address = false /\
      e = WeaverError chain None (Querying method args address) /\
      (maxQueryRetries <= n)%nat
  | Returned v n =>
      truthy v = true \/ (isIgnored chain address = true /\ (maxQueryRetries <= n)%nat)
  | StillRunning _ => True
  end.
Proof.
  revert s. induction fuel as [|fuel IH]; intros s Hle Hinv; cbn [query_loop];
    destruct (query_cond s) eqn:Hcond; try exact I.
  - unfold query_cond in Hcond. apply andb_false_iff in Hcond.
    destruct Hcond as [Hc|Hc]; [left; apply negb_false_iff, Hc|].
    apply Nat.ltb_ge in Hc. right. destruct Hinv as [Hlt|Hig]; [lia|]. split; [exact Hig|lia].
  - unfold query_body.
    destruct (respond _ _) as [v|]; [apply IH; cbn; [lia|exact Hinv]|]. cbv zeta.
    destruct (Nat.leb_spec k (S (q_rpcID s))) as [Hlast|Hmore];
      [|apply IH; cbn; [lia|exact Hinv]].
    destruct (Nat.leb_spec maxQueryRetries (S (q_errors s))) as [Hdone|Hpass];
      [|apply IH; cbn; [lia|left; exact Hpass]].
    destruct (isIgnored chain address) eqn:Hig; cbn [negb].
    + apply IH; cbn; [lia|right; reflexivity].
    + split; [reflexivity|]. split; [reflexivity|]. lia.
  - unfold query_cond in Hcond. apply andb_false_iff in Hcond.
    destruct Hcond as [Hc|Hc]; [left; apply negb_false_iff, Hc|].
    apply Nat.ltb_ge in Hc. right. destruct Hinv as [Hlt|Hig]; [lia|]. split; [exact Hig|lia].
Qed.
End QueryOrder.

(** X1. Endpoints are tried in round-robin order, attempt j going to
    endpoint j mod k: when the attempts before the n-th reject on the
    endpoints they go to and the n-th (n < k x 3) resolves with a truthy
    value, [query] returns that value after n + 1 attempts, whatever the
    other endpoints would have answered. *)
Theorem query_returns_first_answer chains respond chain address method args fuel n v :
  (n < length (rpcs (chains chain)) * maxQueryRetries)%nat ->
  (forall j, (j < n)%nat ->
     respond j (rpcs (chains chain) !! (j mod length (rpcs (chains chain)))%nat) = Rejects) ->
  respond n (rpcs (chains chain) !! (n mod length (rpcs (chains chain)))%nat) = Resolves v ->
  truthy v = true ->
  (n < fuel)%nat ->
  query chains respond chain address method args fuel = Returned v (S n).
Proof.
  intros Hn Hrej Hres Hv Hfuel. unfold query.
  apply (query_loop_first_answer chains respond chain address method args n v n);
    try assumption.
  - apply in_pass_init. destruct (length (rpcs (chains chain))); [cbn in Hn|]; lia.
  - cbn. lia.
  - cbn. lia.
Qed.

Lemma query_returns_first_answer_witness :
  query two_endpoints answers_on_retry "avax" zero "poolLength" [] 2
  = Returned (VBig 7) 2.
Proof.
  apply (query_returns_first_answer two_endpoints answers_on_retry "avax" zero
           "poolLength" [] 2 1 (VBig 7)).
  - cbn. lia.
  - intros [|j] Hj; [reflexivity|lia].
  - reflexivity.
  - reflexivity.
  - lia.
Defined.

(** X2. Whatever the attempts do, [query] throws only for a call the
    suppression list does not cover, and then a [WeaverError] with the
    chain, the method, the arguments and the address, after at least 3
    attempts; and it returns a falsy value (such as [undefined]) only for
    a suppressed call, after at least 3 attempts. *)
Theorem query_outcome chains respond chain address method args fuel :
  match query chains respond chain address method args fuel with
  | Raised e n =>
      isIgnored chain address = false /\
      e = WeaverError chain None (Querying method args address) /\
      (maxQueryRetries <= n)%nat
  | Returned v n =>
      truthy v = true \/ (isIgnored chain address = true /\ (maxQueryRetries <= n)%nat)
  | StillRunning _ => True
  end.
Proof.
  unfold query. apply query_loop_outcome; cbn; [lia|left; unfold maxQueryRetries; lia].
Qed.

Lemma query_bounded_when_results_truthy_witness :
  match query two_endpoints answers_on_retry "avax" zero "poolLength" [] 6 with
  | Returned _ n | Raised _ n => (n <= 6)%nat
  | StillRunning _ => False
  end.
Proof.
  apply (query_bounded_when_results_truthy two_endpoints answers_on_retry "avax" zero
           "poolLength" [] 6).
  - cbn. lia.
  - intros [|n] ep v; [discriminate|]. intros [= <-]. reflexivity.
  - cbn. lia.
Defined.

(** ** More on the batch demultiplexers *)

Lemma oneContractResults_lookup_acc (callsReturnContext : list CallReturnContext)
    (acc : gmap string (list jsval)) (r : string) :
  foldl (fun results result =>
           if success result
           then <[cr_reference result := returnValues result]> results
           else results) acc callsReturnContext !! r
  = match last (filter (fun cr => success cr = true /\ cr_reference cr = r)
                       callsReturnContext) with
    | Some cr => Some (returnValues cr)
    | None => acc !! r
    end.
Proof.
  revert acc. induction callsReturnContext as [|c l IH]; intros acc; cbn [foldl].
  - reflexivity.
  - rewrite IH, filter_cons. case_decide as Hc.
    + destruct Hc as [Hs <-]. rewrite Hs, last_cons.
      destruct (last _); [reflexivity|]. apply lookup_insert_eq.
    + destruct (last _); [reflexivity|].
      destruct (success c) eqn:Hs; [|reflexivity].
      apply lookup_insert_ne. intros Heq. apply Hc. split; [reflexivity|exact Heq].
Qed.

Lemma oneMethodResults_all_present (res : ContractCallResults) (contracts : list string)
    (acc : gmap string (list jsval)) :
  (forall c, c ∈ contracts -> is_Some (res !! c)) ->
  exists results,
    oneMethodResults res contracts acc = Ok results /\
    forall c, results !! c
              = if decide (c ∈ contracts)
                then match firstCallValues res c with
                     | Some values => Some values
                     | None => acc !! c
                     end
                else acc !! c.
Proof.
  revert acc. induction contracts as [|c' l IH]; intros acc Hall; cbn [oneMethodResults].
  - exists acc. split; [reflexivity|]. intros c. rewrite decide_False by set_solver.
    reflexivity.
  - destruct (Hall c' ltac:(set_solver)) as [ctx Hctx].
    assert (Hl : forall c, c ∈ l -> is_Some (res !! c)) by (intros c Hc; apply Hall; set_solver).
    assert (Hf : firstCallValues res c'
                 = match ctx with
                   | cr :: _ => if success cr then Some (returnValues cr) else None
                   | [] => None
                   end) by (unfold firstCallValues; rewrite Hctx; reflexivity).
    rewrite Hctx.
    destruct ctx as [|cr rest]; simpl; [|destruct (success cr) eqn:Hs].
    + destruct (IH acc Hl) as (results & -> & Hres). exists results. split; [reflexivity|].
      intros c. rewrite Hres. destruct (decide (c = c')) as [->|Hne].
      * rewrite (decide_True (P := c' ∈ c' :: l)) by set_solver. rewrite Hf.
        case_decide; reflexivity.
      * repeat case_decide; try reflexivity; set_solver.
    + destruct (IH (<[c' := returnValues cr]> acc) Hl) as (results & -> & Hres).
      exists results. split; [reflexivity|].
      intros c. rewrite Hres. destruct (decide (c = c')) as [->|Hne].
      * rewrite (decide_True (P := c' ∈ c' :: l)) by set_solver. rewrite Hf.
        case_decide; [reflexivity|apply lookup_insert_eq].
      * rewrite lookup_insert_ne by congruence.
        repeat case_decide; try reflexivity; set_solver.
    + destruct (IH acc Hl) as (results & -> & Hres). exists results. split; [reflexivity|].
      intros c. rewrite Hres. destruct (decide (c = c')) as [->|Hne].
      * rewrite (decide_True (P := c' ∈ c' :: l)) by set_solver. rewrite Hf.
        case_decide; reflexivity.
      * repeat case_decide; try reflexivity; set_solver.
Qed.

Lemma oneMethodResults_missing (res : ContractCallResults) (contracts : list string)
    (acc : gmap string (list jsval)) (c : string) :
  c ∈ contracts -> res !! c = None ->
  oneMethodResults res contracts acc = Raise TypeError.
Proof.
  revert acc. induction contracts as [|c' l IH]; intros acc Hc Hnone; [inversion Hc|].
  cbn [oneMethodResults].
  destruct (res !! c') as [ctx|] eqn:Hctx; [|reflexivity].
  assert (Hl : c ∈ l) by (apply elem_of_cons in Hc; destruct Hc as [->|Hc]; [congruence|exact Hc]).
  destruct (ctx !! 0%nat) as [cr|]; [destruct (success cr)|]; apply IH; assumption.
Qed.

Lemma complexQueryResults_dom_acc (contractResults : list CallReturnContext)
    (acc : gmap string (list jsval)) :
  dom (foldl (fun queryResults result =>
                <[cr_reference result := returnValues result]> queryResults)
             acc contractResults)
  = dom acc ∪ list_to_set (cr_reference <$> contractResults).
Proof.
  revert acc. induction contractResults as [|r l IH]; intros acc; cbn [foldl].
  - set_solver.
  - rewrite IH, dom_insert_L. set_solver.
Qed.

Lemma complexResults_all_present (res : ContractCallResults) (contracts : list string)
    (acc : gmap string (gmap string (list jsval))) :
  (forall c, c ∈ contracts -> is_Some (res !! c)) ->
  exists results,
    complexResults res contracts acc = Ok results /\
    forall c, results !! c
              = if decide (c ∈ contracts) then complexQueryResults <$> res !! c
                else acc !! c.
Proof.
  revert acc. induction contracts as [|c' l IH]; intros acc Hall; cbn [complexResults].
  - exists acc. split; [reflexivity|]. intros c. rewrite decide_False by set_solver.
    reflexivity.
  - destruct (Hall c' ltac:(set_solver)) as [ctx Hctx].
    assert (Hl : forall c, c ∈ l -> is_Some (res !! c)) by (intros c Hc; apply Hall; set_solver).
    rewrite Hctx.
    destruct (IH (<[c' := complexQueryResults ctx]> acc) Hl) as (results & -> & Hres).
    exists results. split; [reflexivity|].
    intros c. rewrite Hres. destruct (decide (c = c')) as [->|Hne].
    + rewrite (decide_True (P := c' ∈ c' :: l)) by set_solver. rewrite Hctx.
      case_decide; [reflexivity|apply lookup_insert_eq].
    + rewrite lookup_insert_ne by congruence.
      repeat case_decide; try reflexivity; set_solver.
Qed.

Lemma multicallOneMethodQuery_log W chain contracts abi methodName methodParameters log :
  (multicallOneMethodQuery W chain contracts abi methodName methodParameters log).2
  = log ++ [ {| bc_chain := chain;
                bc_queries := perContractQueries contracts abi
                                (oneMethodCall methodName methodParameters) |} ].
Proof.
  unfold multicallOneMethodQuery, multicallQuery, perContractQueries, oneMethodCall.
  rewrite bind_run. destruct (multicallCall W chain _); reflexivity.
Qed.

Lemma multicallOneMethodQuery_down W chain contracts abi methodName methodParameters log :
  multicallCall W chain
    (perContractQueries contracts abi (oneMethodCall methodName methodParameters)) = None ->
  (multicallOneMethodQuery W chain contracts abi methodName methodParameters log).1
  = Raise (WeaverError chain None InvalidMulticallQuery).
Proof.
  intros Hdown.
  unfold multicallOneMethodQuery, multicallQuery. rewrite bind_run.
  unfold perContractQueries, oneMethodCall in Hdown. rewrite Hdown. reflexivity.
Qed.

(** X4. [multicallOneContractQuery] issues one batch call. It rejects with
    a [WeaverError] when the helper invocation fails, and with a
    [TypeError] when the answer has no entry for its query; otherwise each
    key of the result maps to the return values of the last successful call
    with that reference, and a reference without a successful call is
    absent. *)
Theorem multicallOneContractQuery_results W chain contractAddress abi calls log :
  (multicallOneContractQuery W chain contractAddress abi calls log).2
  = log ++ [oneContractCall chain contractAddress abi calls] /\
  match multicallCall W chain (bc_queries (oneContractCall chain contractAddress abi calls)) with
  | None =>
      (multicallOneContractQuery W chain contractAddress abi calls log).1
      = Raise (WeaverError chain None InvalidMulticallQuery)
  | Some res =>
      match res !! "oneContractQuery" with
      | None =>
          (multicallOneContractQuery W chain contractAddress abi calls log).1
          = Raise TypeError
      | Some callsReturnContext =>
          exists results,
            (multicallOneContractQuery W chain contractAddress abi calls log).1
            = Ok results /\
            forall r,
              results !! r
              = returnValues
                  <$> last (filter (fun cr => success cr = true /\ cr_reference cr = r)
                                   callsReturnContext)
      end
  end.
Proof.
  split; [apply multicallOneContractQuery_log|].
  unfold multicallOneContractQuery, multicallQuery, oneContractCall. cbn [bc_queries].
  rewrite bind_run.
  destruct (multicallCall W chain _) as [res|]; [|reflexivity].
  destruct (res !! "oneContractQuery") as [ctx|]; [|reflexivity].
  eexists. split; [reflexivity|].
  intros r. unfold oneContractResults. rewrite oneContractResults_lookup_acc.
  destruct (last _); reflexivity.
Qed.

(** X5. [multicallOneMethodQuery] issues one batch call carrying one query
    per contract. When the helper answers for every contract, the result
    maps each requested contract whose call succeeded to its return values
    and has no other key; when the answer lacks a requested contract it
    rejects with a [TypeError]; when the helper invocation fails it rejects
    with a [WeaverError]. *)
Theorem multicallOneMethodQuery_results W chain contracts abi methodName
    methodParameters log :
  (multicallOneMethodQuery W chain contracts abi methodName methodParameters log).2
  = log ++ [ {| bc_chain := chain;
                bc_queries := perContractQueries contracts abi
                                (oneMethodCall methodName methodParameters) |} ] /\
  match multicallCall W chain
          (perContractQueries contracts abi (oneMethodCall methodName methodParameters)) with
  | None =>
      (multicallOneMethodQuery W chain contracts abi methodName methodParameters log).1
      = Raise (WeaverError chain None InvalidMulticallQuery)
  | Some res =>
      ((forall c, c ∈ contracts -> is_Some (res !! c)) ->
       exists results,
         (multicallOneMethodQuery W chain contracts abi methodName methodParameters log).1
         = Ok results /\
         forall c, results !! c
                   = if decide (c ∈ contracts) then firstCallValues res c else None) /\
      (forall c, c ∈ contracts -> res !! c = None ->
         (multicallOneMethodQuery W chain contracts abi methodName methodParameters log).1
         = Raise TypeError)
  end.
Proof.
  unfold multicallOneMethodQuery, multicallQuery, perContractQueries, oneMethodCall.
  rewrite bind_run.
  destruct (multicallCall W chain _) as [res|]; [|split; reflexivity].
  unfold lift. cbn [fst snd]. split; [reflexivity|]. split.
  - intros Hall. destruct (oneMethodResults_all_present res contracts ∅ Hall)
      as (results & -> & Hres).
    exists results. split; [reflexivity|]. intros c. rewrite Hres, lookup_empty.
    case_decide; [destruct (firstCallValues res c)|]; reflexivity.
  - intros c Hc Hnone. rewrite (oneMethodResults_missing res contracts ∅ c Hc Hnone).
    reflexivity.
Qed.

Lemma multicallOneMethodQuery_results_witness :
  exists results,
    (multicallOneMethodQuery world_wallet "avax" [joe; qiusdc; usdc] minABI "balanceOf"
       [VStr "0xowner"] []).1 = Ok results /\
    results !! joe = Some [VBig 5000000000000000000] /\
    results !! qiusdc = Some [VBig 0] /\
    results !! usdc = None.
Proof.
  pose proof (multicallOneMethodQuery_results world_wallet "avax" [joe; qiusdc; usdc]
                minABI "balanceOf" [VStr "0xowner"] []) as [_ H].
  cbn [multicallCall world_wallet] in H. destruct H as [H _].
  destruct H as (results & Hrun & Hres).
  - intros c Hc. apply list_elem_of_In in Hc.
    destruct Hc as [<-|[<-|[<-|[]]]]; vm_compute; eauto.
  - exists results. split; [exact Hrun|]. rewrite !Hres. repeat split; reflexivity.
Defined.

(** X6. [multicallComplexQuery] issues one batch call carrying one query
    per contract. When the helper answers for every contract, the result
    has exactly the requested contracts as keys, and the mapping of a
    contract has the reference of every call of its answer as a key,
    whether the call succeeded or not. *)
Theorem multicallComplexQuery_results W chain contracts abi calls log :
  (multicallComplexQuery W chain contracts abi calls log).2
  = log ++ [ {| bc_chain := chain;
                bc_queries := perContractQueries contracts abi calls |} ] /\
  match multicallCall W chain (perContractQueries contracts abi calls) with
  | None =>
      (multicallComplexQuery W chain contracts abi calls log).1
      = Raise (WeaverError chain None InvalidMulticallQuery)
  | Some res =>
      (forall c, c ∈ contracts -> is_Some (res !! c)) ->
      exists results,
        (multicallComplexQuery W chain contracts abi calls log).1 = Ok results /\
        dom results = list_to_set contracts /\
        forall c contractResults,
          c ∈ contracts -> res !! c = Some contractResults ->
          exists queryResults,
            results !! c = Some queryResults /\
            dom queryResults = list_to_set (cr_reference <$> contractResults)
  end.
Proof.
  unfold multicallComplexQuery, multicallQuery, perContractQueries.
  rewrite bind_run.
  destruct (multicallCall W chain _) as [res|]; [|split; reflexivity].
  unfold lift. cbn [fst snd]. split; [reflexivity|].
  intros Hall. destruct (complexResults_all_present res contracts ∅ Hall)
    as (results & -> & Hres).
  exists results. split; [reflexivity|]. split.
  - apply set_eq. intros c. rewrite elem_of_dom, Hres, elem_of_list_to_set.
    case_decide as Hc.
    + split; [intros _; exact Hc|]. intros _. destruct (Hall c Hc) as [ctx ->]. eauto.
    + rewrite lookup_empty. split; [intros [? ?]; discriminate|tauto].
  - intros c ctx Hc Hctx. exists (complexQueryResults ctx). split.
    + rewrite Hres, decide_True by exact Hc. rewrite Hctx. reflexivity.
    + unfold complexQueryResults. rewrite complexQueryResults_dom_acc. set_solver.
Qed.

Lemma multicallComplexQuery_results_witness :
  exists results,
    (multicallComplexQuery world_second_call_failed "eth" ["0xpool"; "0xfarm"] minABI
       three_calls []).1 = Ok results /\
    dom results = list_to_set ["0xpool"; "0xfarm"].
Proof.
  pose proof (multicallComplexQuery_results world_second_call_failed "eth"
                ["0xpool"; "0xfarm"] minABI three_calls []) as [_ H].
  cbn [multicallCall world_second_call_failed helper_second_call_failed] in H.
  destruct H as (results & Hrun & Hdom & _).
  - intros c Hc. apply list_elem_of_In in Hc.
    destruct Hc as [<-|[<-|[]]]; vm_compute; eauto.
  - exists results. split; [exact Hrun|exact Hdom].
Defined.

(** ** The token catalogue *)

Lemma lower_upper_ascii (c : ascii) : lower_ascii (upper_ascii c) = lower_ascii c.
Proof. destruct c as [[] [] [] [] [] [] [] []]; reflexivity. Qed.

Lemma lower_lower_ascii (c : ascii) : lower_ascii (lower_ascii c) = lower_ascii c.
Proof. destruct c as [[] [] [] [] [] [] [] []]; reflexivity. Qed.

Lemma toLowerCase_toUpperCase (s : string) : toLowerCase (toUpperCase s) = toLowerCase s.
Proof.
  induction s as [|c s IH]; cbn [toLowerCase toUpperCase]; [reflexivity|].
  rewrite lower_upper_ascii, IH. reflexivity.
Qed.

Lemma toLowerCase_idempotent (s : string) : toLowerCase (toLowerCase s) = toLowerCase s.
Proof.
  induction s as [|c s IH]; cbn [toLowerCase]; [reflexivity|].
  rewrite lower_lower_ascii, IH. reflexivity.
Qed.

Lemma find_unique_key {A : Type} (key : A -> string) (l : list A) (x : A) :
  NoDup (key <$> l) -> x ∈ l ->
  find (fun y => String.eqb (key y) (key x)) l = Some x.
Proof.
  induction l as [|y l IH]; intros Hnd Hx; [inversion Hx|].
  rewrite fmap_cons in Hnd. apply NoDup_cons in Hnd. destruct Hnd as [Hy Hnd].
  cbn [find]. apply elem_of_cons in Hx. destruct Hx as [->|Hx].
  - rewrite String.eqb_refl. reflexivity.
  - destruct (String.eqb_spec (key y) (key x)) as [Heq|_]; [|apply IH; assumption].
    exfalso. apply Hy. rewrite Heq. apply list_elem_of_fmap. eauto.
Qed.

(** X7. The catalogue lookup ignores the letter case of the address. An
    entry it finds is a token of the chain whose address is the queried
    one up to letter case, and it finds none only when the chain has no
    such token. *)
Theorem getTrackedTokenInfo_ignores_case W chain address :
  getTrackedTokenInfo W chain (toUpperCase address) = getTrackedTokenInfo W chain address /\
  getTrackedTokenInfo W chain (toLowerCase address) = getTrackedTokenInfo W chain address /\
  match getTrackedTokenInfo W chain address with
  | Some token =>
      token ∈ getTokens W chain /\
      toLowerCase (td_address token) = toLowerCase address
  | None =>
      forall token, token ∈ getTokens W chain ->
                    toLowerCase (td_address token) <> toLowerCase address
  end.
Proof.
  unfold getTrackedTokenInfo, getTokens.
  rewrite toLowerCase_toUpperCase, toLowerCase_idempotent.
  split; [reflexivity|]. split; [reflexivity|].
  destruct (getChainTokenData W chain) as [data|]; [|intros token Htoken; inversion Htoken].
  destruct (find _ (tokens data)) as [token|] eqn:Hfind.
  - apply find_some in Hfind. destruct Hfind as [Hin Heq].
    split; [apply list_elem_of_In, Hin|apply String.eqb_eq, Heq].
  - intros token Htoken. apply list_elem_of_In in Htoken.
    apply (find_none _ _ Hfind) in Htoken. apply String.eqb_neq, Htoken.
Qed.

Lemma getTrackedTokenInfo_ignores_case_witness :
  getTrackedTokenInfo world_wallet "avax" (toUpperCase usdc) = Some usdc_entry /\
  getTrackedTokenInfo world_wallet "avax" (toLowerCase usdc) = Some usdc_entry.
Proof.
  destruct (getTrackedTokenInfo_ignores_case world_wallet "avax" usdc) as (Hupper & Hlower & _).
  split; [rewrite Hupper|rewrite Hlower]; reflexivity.
Defined.

(** X8. When the symbols of a chain's tracked tokens are pairwise distinct,
    the logo found by symbol for a tracked token is the logo of its
    catalogue entry, whatever the list of extra logos holds; and for a chain
    without token data the logo is the default one. *)
Theorem getTokenLogo_of_tracked_token W chain :
  (forall token,
     NoDup (td_symbol <$> getTokens W chain) -> token ∈ getTokens W chain ->
     getTokenLogo W chain (td_symbol token) = td_logo token) /\
  (getChainTokenData W chain = None ->
   forall symbol, getTokenLogo W chain symbol = defaultTokenLogo).
Proof.
  unfold getTokenLogo, getTokens. split.
  - intros token Hnd Htoken.
    destruct (getChainTokenData W chain) as [data|]; [|inversion Htoken].
    rewrite (find_unique_key td_symbol (tokens data) token Hnd Htoken). reflexivity.
  - intros -> symbol. reflexivity.
Qed.

Lemma getTokenLogo_of_tracked_token_witness :
  getTokenLogo world_wallet "avax" "USDC" = "usdc.png" /\
  getTokenLogo world_wallet "terra" "LUNA" = defaultTokenLogo.
Proof.
  pose proof (getTokenLogo_of_tracked_token world_wallet "avax") as [Htracked _].
  pose proof (getTokenLogo_of_tracked_token world_wallet "terra") as [_ Hnone].
  split.
  - apply (Htracked usdc_entry).
    + vm_compute. repeat constructor; set_solver.
    + apply list_elem_of_In. vm_compute. tauto.
  - apply Hnone. reflexivity.
Defined.

(** ** More on the token builders *)

Lemma pairedTokenInfo_log W chain address log :
  (pairedTokenInfo W chain (getTrackedTokenInfo W chain address) address log).2
  = log ++ pairedTokenCalls W chain address.
Proof.
  unfold pairedTokenInfo, pairedTokenCalls.
  destruct (getTrackedTokenInfo W chain address) as [t|].
  - cbn. rewrite app_nil_r. reflexivity.
  - pose proof (multicallOneContractQuery_log W chain address minABI metadataCalls log)
      as Hlog.
    unfold_M.
    destruct (multicallOneContractQuery W chain address minABI metadataCalls log)
      as [[results|e] log']; cbn in Hlog; subst log'; [|reflexivity].
    repeat case_match; reflexivity.
Qed.

Lemma first_of_present {A : Type} (results : gmap string (list jsval)) (key : string)
    (f : jsval -> outcome A) (a : A) :
  first_of results key ≫= f = Ok a -> is_Some (results !! key).
Proof.
  unfold mbind, outcome_bind, first_of.
  destruct (results !! key); [eauto|discriminate].
Qed.

Lemma first_of_absent {A : Type} (results : gmap string (list jsval)) (key : string)
    (f : jsval -> outcome A) :
  results !! key = None -> first_of results key ≫= f = Raise TypeError.
Proof. intros H. unfold mbind, outcome_bind, first_of. rewrite H. reflexivity. Qed.

(** Gathers what the steps of a run that resolved say about the log. *)
Ltac settle_logs :=
  repeat match goal with
         | H : lift _ _ = _ |- _ => apply lift_run in H; destruct H as [H ->]
         | H : multicallOneContractQuery ?W ?c ?a ?abi ?calls ?log = (_, ?l) |- _ =>
             let Hlog := fresh "Hlog" in
             pose proof (multicallOneContractQuery_log W c a abi calls log) as Hlog;
             rewrite H in Hlog; cbn [snd] in Hlog; subst l
         | H : pairedTokenInfo ?W ?c (getTrackedTokenInfo ?W ?c ?a) ?a ?log = (_, ?l) |- _ =>
             let Hlog := fresh "Hlog" in
             pose proof (pairedTokenInfo_log W c a log) as Hlog;
             rewrite H in Hlog; cbn [snd] in Hlog; subst l
         end.

Lemma addLPToken_calls W chain location status address rawBalance owner log :
  match addLPToken W chain location status address rawBalance owner log with
  | (Ok lp, log') =>
      log' = log ++ [oneContractCall chain address lpABI lpCalls]
                 ++ pairedTokenCalls W chain (pt_address (lp_token0 lp))
                 ++ pairedTokenCalls W chain (pt_address (lp_token1 lp)) /\
      exists results,
        (multicallOneContractQuery W chain address lpABI lpCalls log).1 = Ok results /\
        Forall (fun key => is_Some (results !! key)) lpReferences
  | (Raise _, _) => True
  end.
Proof.
  unfold addLPToken.
  repeat (run_step; [|exact I]).
  unfold mret, M_ret. cbv beta iota. cbn [lp_token0 lp_token1 pt_address].
  settle_logs. split.
  - rewrite <- !app_assoc. reflexivity.
  - eexists. split; [reflexivity|].
    repeat match goal with
           | H : first_of _ _ ≫= _ = Ok _ |- _ => apply first_of_present in H
           | H : reserve_of _ _ = Ok _ |- _ =>
               apply reserve_of_resolved in H; destruct H as (? & ? & H & _ & _)
           end.
    unfold lpReferences. repeat constructor; eauto.
Qed.

(** X9. For the native sentinel address [addToken] and [addDebtToken]
    always resolve, without a batch call and whatever the catalogue and the
    helper hold, with the record of [addNativeToken] for the same chain,
    balance and owner, retagged with their own type, location and status. *)
Theorem addToken_of_sentinel_is_native W chain location status rawBalance owner log :
  addToken W chain location status defaultAddress rawBalance owner log
  = (Ok (retagged ty_token location status (addNativeToken W chain rawBalance owner)), log) /\
  addDebtToken W chain location defaultAddress rawBalance owner log
  = (Ok (retagged ty_debt location st_borrowed (addNativeToken W chain rawBalance owner)),
     log).
Proof.
  rewrite addToken_run, addDebtToken_run.
  rewrite (findTokenInfo_native W chain defaultAddress log) by reflexivity.
  split; reflexivity.
Qed.

(** X10. For a token the catalogue lookup finds under its own address,
    other than the sentinel, [addToken] resolves without a batch call with
    the record [addTrackedToken] builds from the entry. *)
Theorem addToken_of_tracked_is_addTrackedToken W chain location status token rawBalance
    owner log :
  getTrackedTokenInfo W chain (td_address token) = Some token ->
  toLowerCase (td_address token) <> defaultAddress ->
  addToken W chain location status (td_address token) rawBalance owner log
  = (Ok (addTrackedToken W chain location status token rawBalance owner), log).
Proof.
  intros Htoken Hne. rewrite addToken_run.
  rewrite (findTokenInfo_tracked W chain (td_address token) log token Hne Htoken).
  reflexivity.
Qed.

Lemma addToken_of_tracked_is_addTrackedToken_witness :
  addToken world_wallet "avax" "wallet" st_none usdc 7000000 "0xowner" []
  = (Ok (addTrackedToken world_wallet "avax" "wallet" st_none usdc_entry 7000000
           "0xowner"), []).
Proof.
  apply (addToken_of_tracked_is_addTrackedToken world_wallet "avax" "wallet" st_none
           usdc_entry 7000000%Q "0xowner" []).
  - reflexivity.
  - discriminate.
Defined.

(** X11. [addDebtToken] is [addToken] with the type and the status of a
    debt: both resolve or reject together, issue the same batch calls, and
    their records differ in the type (debt) and the status (borrowed)
    only. *)
Theorem addDebtToken_is_addToken_as_debt W chain location status address rawBalance
    owner log :
  addDebtToken W chain location address rawBalance owner log
  = resolved_with as_debt (addToken W chain location status address rawBalance owner log).
Proof.
  rewrite addToken_run, addDebtToken_run. unfold resolved_with.
  destruct (findTokenInfo W chain address log) as [[[[s d] l]|e] log']; reflexivity.
Qed.

(** X12. On a catalogue miss for an address other than the sentinel,
    [addToken] does not fall back on default metadata: it rejects with a
    [WeaverError] when the helper invocation fails, and with a [TypeError]
    when the [symbol] call, or the [decimals] call beside a decoded symbol,
    is missing from the batch results; one batch call has been issued in
    each case. *)
Theorem addToken_rejects_on_partial_metadata W chain location status address rawBalance
    owner log :
  toLowerCase address <> defaultAddress ->
  getTrackedTokenInfo W chain address = None ->
  match multicallOneContractQuery W chain address minABI metadataCalls log with
  | (Raise e, log') =>
      addToken W chain location status address rawBalance owner log = (Raise e, log')
  | (Ok results, log') =>
      (results !! "symbol" = None ->
       addToken W chain location status address rawBalance owner log
       = (Raise TypeError, log')) /\
      (forall symbol,
         first_of results "symbol" = Ok (VStr symbol) -> results !! "decimals" = None ->
         addToken W chain location status address rawBalance owner log
         = (Raise TypeError, log'))
  end /\
  (addToken W chain location status address rawBalance owner log).2
  = log ++ [oneContractCall chain address minABI metadataCalls].
Proof.
  intros Hne Hmiss. split.
  - rewrite addToken_run. unfold resolved_with, findTokenInfo.
    apply String.eqb_neq in Hne. rewrite Hne, Hmiss. rewrite bind_run.
    destruct (multicallOneContractQuery W chain address minABI metadataCalls log)
      as [[results|e] log']; [|reflexivity].
    split.
    + intros Hsym. rewrite bind_run. unfold lift.
      rewrite (first_of_absent results "symbol" as_string Hsym). reflexivity.
    + intros symbol Hsym Hdec. rewrite !bind_run. unfold lift.
      unfold mbind at 1, outcome_bind at 1. rewrite Hsym. cbn [as_string].
      rewrite (first_of_absent results "decimals" as_uint8 Hdec). reflexivity.
  - rewrite addToken_run. unfold resolved_with. cbn [snd].
    apply findTokenInfo_log_miss; assumption.
Qed.

Lemma addToken_rejects_on_partial_metadata_witness :
  addToken world_decimals_failed "eth" "wallet" st_none zero 1000 "0xowner" []
  = (Raise TypeError, [oneContractCall "eth" zero minABI metadataCalls]) /\
  addToken world_helper_down "avax" "wallet" st_none zero 1000 "0xowner" []
  = (Raise (WeaverError "avax" None InvalidMulticallQuery),
     [oneContractCall "avax" zero minABI metadataCalls]).
Proof.
  pose proof (addToken_rejects_on_partial_metadata world_decimals_failed "eth" "wallet"
                st_none zero 1000%Q "0xowner" [] ltac:(discriminate) eq_refl) as [H1 _].
  pose proof (addToken_rejects_on_partial_metadata world_helper_down "avax" "wallet"
                st_none zero 1000%Q "0xowner" [] ltac:(discriminate) eq_refl) as [H2 _].
  split.
  - exact (proj2 H1 "TKN" eq_refl eq_refl).
  - exact H2.
Defined.

(** X13. A record [addLPToken] resolves with has cost one batch call to the
    pair, then one to each paired token the catalogue does not have, in
    that order; and the batch results of the pair held all six references
    ([symbol], [decimals], [reserves], [totalSupply], [token0], [token1]). *)
Theorem addLPToken_batch_calls W chain location status address rawBalance owner log lp
    log' :
  addLPToken W chain location status address rawBalance owner log = (Ok lp, log') ->
  log' = log ++ [oneContractCall chain address lpABI lpCalls]
             ++ pairedTokenCalls W chain (pt_address (lp_token0 lp))
             ++ pairedTokenCalls W chain (pt_address (lp_token1 lp)) /\
  exists results,
    (multicallOneContractQuery W chain address lpABI lpCalls log).1 = Ok results /\
    Forall (fun key => is_Some (results !! key)) lpReferences.
Proof.
  intros Hrun.
  pose proof (addLPToken_calls W chain location status address rawBalance owner log) as H.
  rewrite Hrun in H. exact H.
Qed.

Lemma addLPToken_batch_calls_witness :
  exists lp,
    addLPToken world_pair "avax" "traderjoe" st_staked pair 10000000000000000000
               "0xowner" []
    = (Ok lp, [ oneContractCall "avax" pair lpABI lpCalls;
                oneContractCall "avax" usdc minABI metadataCalls ]).
Proof.
  eexists.
  assert (Hrun : exists log',
     addLPToken world_pair "avax" "traderjoe" st_staked pair 10000000000000000000
                "0xowner" [] = (Ok _, log')) by (eexists; vm_compute; reflexivity).
  destruct Hrun as [log' Hrun]. rewrite Hrun. f_equal.
  destruct (addLPToken_batch_calls world_pair "avax" "traderjoe" st_staked pair
              10000000000000000000%Q "0xowner" [] _ log' Hrun) as [-> _].
  reflexivity.
Defined.

(** X14. [addLPToken] never builds a record from a partial answer: when one
    of the six references is missing from the batch results of the pair
    (its call failed), the builder rejects. *)
Theorem addLPToken_rejects_on_partial_answer W chain location status address rawBalance
    owner log results key :
  (multicallOneContractQuery W chain address lpABI lpCalls log).1 = Ok results ->
  key ∈ lpReferences -> results !! key = None ->
  exists e log',
    addLPToken W chain location status address rawBalance owner log = (Raise e, log').
Proof.
  intros Hresults Hkey Hnone.
  pose proof (addLPToken_calls W chain location status address rawBalance owner log) as H.
  destruct (addLPToken W chain location status address rawBalance owner log)
    as [[lp|e] log']; [|eauto].
  exfalso. destruct H as (_ & results' & Hresults' & Hall).
  rewrite Hresults in Hresults'. injection Hresults' as <-.
  rewrite Forall_forall in Hall. destruct (Hall key Hkey) as [v Hv]. congruence.
Qed.

Lemma addLPToken_rejects_on_partial_answer_witness :
  exists e log',
    addLPToken world_second_call_failed "eth" "uniswap" st_liquidity "0xpool" 1000
               "0xowner" [] = (Raise e, log').
Proof.
  eapply (addLPToken_rejects_on_partial_answer world_second_call_failed "eth" "uniswap"
            st_liquidity "0xpool" 1000%Q "0xowner" [] _ "reserves").
  - reflexivity.
  - apply list_elem_of_In. vm_compute. tauto.
  - reflexivity.
Defined.

(** ** More on the wallet scan *)

Section NativeLoop.
Variable W : World.
Variable getBalance : nat -> option string -> option Z.
Variable chain : string.

Local Abbreviation k := (length (rpcs (chains W chain))).
Local Abbreviation K := (Nat.max (length (rpcs (chains W chain))) 1).

Lemma native_loop_rejections (m fuel i : nat) (s : NativeState) :
  in_native_pass k s i ->
  (forall j, (i <= j < i + m)%nat ->
     getBalance j (rpcs (chains W chain) !! (j mod K)%nat) = None) ->
  (i + m <= K * maxQueryRetries)%nat -> (m <= fuel)%nat ->
  exists s',
    in_native_pass k s' (i + m) /\
    native_loop W getBalance chain fuel i s
    = native_loop W getBalance chain (fuel - m) (i + m) s'.
Proof.
  revert fuel i s. induction m as [|m IH]; intros fuel i s Hin Hrej Hle Hfuel.
  - exists s. rewrite Nat.add_0_r, Nat.sub_0_r. split; [exact Hin|reflexivity].
  - destruct fuel as [|fuel]; [lia|].
    destruct Hin as (Hbal & Hid & Hi).
    assert (Herr : (n_errors s < maxQueryRetries)%nat)
      by (unfold maxQueryRetries in *; nia).
    assert (Hmod : n_rpcID s = (i mod K)%nat).
    { rewrite Hi, Nat.add_comm, Nat.Div0.mod_add. symmetry. apply Nat.mod_small, Hid. }
    cbn [native_loop]. unfold native_cond at 1. rewrite Hbal. cbn [andb].
    apply Nat.ltb_lt in Herr. rewrite Herr. apply Nat.ltb_lt in Herr.
    assert (Hbody : in_native_pass k (native_body W getBalance chain i s) (S i)).
    { unfold native_body. rewrite Hmod, (Hrej i) by lia. rewrite <- Hmod. cbv zeta.
      unfold in_native_pass.
      destruct (Nat.leb_spec k (S (n_rpcID s))) as [Hlast|Hmore]; cbn;
        repeat split; try assumption; lia. }
    destruct (IH fuel (S i) _ Hbody) as (s' & Hin' & Hloop); try lia.
    { intros j Hj. apply Hrej. lia. }
    exists s'. replace (i + S m)%nat with (S i + m)%nat by lia.
    split; [exact Hin'|]. rewrite Hloop. reflexivity.
Qed.

Lemma native_loop_stop (fuel n : nat) (s : NativeState) :
  native_cond s = false -> native_loop W getBalance chain fuel n s = Some s.
Proof. intros H. destruct fuel; cbn [native_loop]; rewrite H; reflexivity. Qed.
End NativeLoop.

Lemma Qeq_bool_inject_Z (z : Z) : Qeq_bool (inject_Z z) 0 = (z =? 0)%Z.
Proof. unfold Qeq_bool. cbn. rewrite Z.mul_1_r. unfold Z.eqb. destruct z; reflexivity. Qed.

Lemma Qle_bool_inject_Z (z : Z) : Qle_bool (inject_Z z) 0 = (z <=? 0)%Z.
Proof. unfold Qle_bool. cbn. rewrite Z.mul_1_r. reflexivity. Qed.

(** X15. When every endpoint rejects, [getWalletNativeTokenBalance] does
    not throw: after 3 passes over the endpoints it returns an empty
    array. *)
Theorem native_scan_is_empty_when_endpoints_fail W getBalance fuel chain wallet :
  (forall n endpoint, getBalance n endpoint = None) ->
  (Nat.max (length (rpcs (chains W chain))) 1 * maxQueryRetries <= fuel)%nat ->
  getWalletNativeTokenBalance W getBalance fuel chain wallet = Some [].
Proof.
  intros Hrej Hfuel. unfold getWalletNativeTokenBalance.
  destruct (native_loop_rejections W getBalance chain
              (Nat.max (length (rpcs (chains W chain))) 1 * maxQueryRetries) fuel 0
              {| n_balance := None; n_errors := 0; n_rpcID := 0 |})
    as (s' & (Hbal & Hid & Hn) & ->); try lia.
  - unfold in_native_pass. cbn. repeat split; lia.
  - intros j _. apply Hrej.
  - rewrite native_loop_stop.
    + rewrite Hbal. reflexivity.
    + unfold native_cond. rewrite Hbal. cbn [andb]. apply Nat.ltb_ge.
      unfold maxQueryRetries in *. nia.
Qed.

Lemma native_scan_is_empty_when_endpoints_fail_witness :
  getWalletNativeTokenBalance world_wallet no_balance_answer 6 "avax" "0xowner" = Some [].
Proof.
  apply (native_scan_is_empty_when_endpoints_fail world_wallet no_balance_answer 6
           "avax" "0xowner").
  - reflexivity.
  - cbn. lia.
Defined.

(** X16. The native balance is read from the endpoints in round-robin
    order: when the attempts before the n-th reject on the endpoints they
    go to and the n-th (within the 3 passes) answers a balance other than
    zero, the scan returns the native record of that balance when it is
    positive, and an empty array when it is negative. *)
Theorem native_scan_returns_first_answer W getBalance fuel chain wallet n z :
  (n < Nat.max (length (rpcs (chains W chain))) 1 * maxQueryRetries)%nat ->
  (forall j, (j < n)%nat ->
     getBalance j (rpcs (chains W chain)
                     !! (j mod Nat.max (length (rpcs (chains W chain))) 1)%nat) = None) ->
  getBalance n (rpcs (chains W chain)
                  !! (n mod Nat.max (length (rpcs (chains W chain))) 1)%nat) = Some z ->
  z <> 0 ->
  (n < fuel)%nat ->
  getWalletNativeTokenBalance W getBalance fuel chain wallet
  = Some (if (0 <? z)%Z then [addNativeToken W chain (inject_Z z) wallet] else []).
Proof.
  intros Hn Hrej Hans Hz Hfuel. unfold getWalletNativeTokenBalance.
  destruct (native_loop_rejections W getBalance chain n fuel 0
              {| n_balance := None; n_errors := 0; n_rpcID := 0 |})
    as (s' & (Hbal & Hid & Hi) & ->); try lia.
  - unfold in_native_pass. cbn. repeat split; lia.
  - intros j Hj. apply Hrej. lia.
  - cbn [Nat.add] in *.
    assert (Herr : (n_errors s' < maxQueryRetries)%nat)
      by (unfold maxQueryRetries in *; nia).
    assert (Hmod : n_rpcID s' = (n mod Nat.max (length (rpcs (chains W chain))) 1)%nat).
    { rewrite Hi at 1. rewrite Nat.add_comm, Nat.Div0.mod_add. symmetry.
      apply Nat.mod_small, Hid. }
    destruct (fuel - n)%nat as [|fuel'] eqn:Hf; [lia|].
    cbn [native_loop]. unfold native_cond at 1. rewrite Hbal. cbn [andb].
    apply Nat.ltb_lt in Herr. rewrite Herr.
    unfold native_body. rewrite Hmod, Hans.
    rewrite native_loop_stop
      by (unfold native_cond; cbn [n_balance]; rewrite Qeq_bool_inject_Z;
          apply Z.eqb_neq in Hz; rewrite Hz; reflexivity).
    cbn [n_balance]. rewrite Qeq_bool_inject_Z, Qle_bool_inject_Z.
    apply Z.eqb_neq in Hz. rewrite Hz. cbn [negb andb].
    rewrite Z.ltb_antisym. destruct (z <=? 0)%Z; reflexivity.
Qed.

Lemma native_scan_returns_first_answer_witness :
  getWalletNativeTokenBalance world_wallet second_endpoint_answers 2 "avax" "0xowner"
  = Some [addNativeToken world_wallet "avax" 3000000000000000000 "0xowner"] /\
  getWalletNativeTokenBalance world_wallet second_endpoint_answers_negative 2 "avax"
    "0xowner" = Some [].
Proof.
  split.
  - apply (native_scan_returns_first_answer world_wallet second_endpoint_answers 2
             "avax" "0xowner" 1 3000000000000000000).
    + cbn. lia.
    + intros [|j] Hj; [reflexivity|lia].
    + reflexivity.
    + discriminate.
    + lia.
  - apply (native_scan_returns_first_answer world_wallet second_endpoint_answers_negative
             2 "avax" "0xowner" 1 (-5)).
    + cbn. lia.
    + intros [|j] Hj; [reflexivity|lia].
    + reflexivity.
    + discriminate.
    + lia.
Defined.

Lemma promiseAll_includes {A : Type} (sched : list nat) (branches : list (outcome (list A)))
    (records pushed : list A) (x : A) :
  promiseAll sched branches = Ok records -> Ok pushed ∈ branches -> x ∈ pushed ->
  x ∈ records.
Proof.
  unfold promiseAll. destruct (settled branches) as [ls|e] eqn:Hs; [|discriminate].
  intros [= <-] Hbranch Hx. rewrite interleave_perm.
  apply list_elem_of_In, in_concat. exists pushed. split; [|apply list_elem_of_In, Hx].
  rewrite (settled_resolved _ _ Hs) in Hbranch.
  apply list_elem_of_In, in_map_iff in Hbranch.
  destruct Hbranch as (l & [= ->] & Hl). exact Hl.
Qed.

Lemma promiseAll_length {A : Type} (sched : list nat) (branches : list (outcome (list A)))
    (records : list A) :
  promiseAll sched branches = Ok records ->
  (forall pushed, Ok pushed ∈ branches -> (length pushed <= 1)%nat) ->
  (length records <= length branches)%nat.
Proof.
  unfold promiseAll. destruct (settled branches) as [ls|e] eqn:Hs; [|discriminate].
  intros [= <-] Hone. rewrite interleave_perm.
  rewrite (settled_resolved _ _ Hs) in *. rewrite length_map. clear Hs.
  induction ls as [|l ls IH]; [cbn; lia|].
  cbn [concat]. rewrite length_app. cbn [length].
  assert (Hl : (length l <= 1)%nat) by (apply Hone; cbn [map]; set_solver).
  assert (Hls : (length (concat ls) <= length ls)%nat)
    by (apply IH; intros pushed Hp; apply Hone; cbn [map]; set_solver).
  lia.
Qed.

Lemma oneMethodResults_lookup_complete (res : ContractCallResults) (contracts : list string)
    (results : gmap string (list jsval)) (c : string) (values : list jsval) :
  oneMethodResults res contracts ∅ = Ok results ->
  c ∈ contracts -> firstCallValues res c = Some values ->
  results !! c = Some values.
Proof.
  intros Hrun Hc Hvalues.
  assert (Hall : forall c', c' ∈ contracts -> is_Some (res !! c')).
  { intros c' Hc'. destruct (res !! c') as [ctx|] eqn:Hctx; [eauto|].
    rewrite (oneMethodResults_missing res contracts ∅ c' Hc' Hctx) in Hrun. discriminate. }
  destruct (oneMethodResults_all_present res contracts ∅ Hall) as (results' & Hrun' & Hres).
  rewrite Hrun in Hrun'. injection Hrun' as <-.
  rewrite Hres, decide_True by exact Hc. rewrite Hvalues. reflexivity.
Qed.

(** X17. [getWalletTokenBalance] issues no batch call and returns an empty
    array for a chain without token data. For any other chain it issues one
    batch call, with one [balanceOf(wallet)] query per tracked token; when
    that helper invocation fails, [getWalletBalance] rejects with the
    [WeaverError] of the batch layer, whatever native balance it had
    read. *)
Theorem wallet_scan_batch W getBalance sched fuel chain wallet log :
  (getChainTokenData W chain = None ->
   getWalletTokenBalance W sched chain wallet log = (Ok [], log)) /\
  (forall data,
     getChainTokenData W chain = Some data ->
     (getWalletTokenBalance W sched chain wallet log).2
     = log ++ [ {| bc_chain := chain; bc_queries := balanceOfQueries data wallet |} ] /\
     (multicallCall W chain (balanceOfQueries data wallet) = None ->
      forall scan,
        getWalletBalance W getBalance sched fuel chain wallet = Some scan ->
        (scan log).1 = Raise (WeaverError chain None InvalidMulticallQuery))).
Proof.
  split.
  - intros Hdata. unfold getWalletTokenBalance. rewrite Hdata. reflexivity.
  - intros data Hdata.
    assert (Hlog : (getWalletTokenBalance W sched chain wallet log).2
                   = log ++ [ {| bc_chain := chain;
                                 bc_queries := balanceOfQueries data wallet |} ]).
    { unfold getWalletTokenBalance. rewrite Hdata, bind_run.
      pose proof (multicallOneMethodQuery_log W chain (map td_address (tokens data))
                    minABI "balanceOf" [VStr wallet] log) as Hl.
      destruct (multicallOneMethodQuery W chain _ _ _ _ log) as [[results|e] log1];
        cbn [snd] in Hl; subst log1; reflexivity. }
    split; [exact Hlog|].
    intros Hdown scan. unfold getWalletBalance.
    destruct (getWalletNativeTokenBalance W getBalance fuel chain wallet) as [native|];
      [|discriminate].
    intros [= <-]. rewrite bind_run.
    unfold getWalletTokenBalance. rewrite Hdata, bind_run.
    pose proof (multicallOneMethodQuery_down W chain (map td_address (tokens data))
                  minABI "balanceOf" [VStr wallet] log Hdown) as Hrun.
    destruct (multicallOneMethodQuery W chain _ _ _ _ log) as [[results|e] log1];
      cbn [fst] in Hrun; [discriminate|]. injection Hrun as ->. reflexivity.
Qed.

Lemma wallet_scan_batch_witness :
  exists scan,
    getWalletBalance world_helper_down second_endpoint_answers [] 2 "avax" "0xowner"
    = Some scan /\
    (scan []).1 = Raise (WeaverError "avax" None InvalidMulticallQuery) /\
    getWalletTokenBalance world_helper_down [] "terra" "0xowner" [] = (Ok [], []).
Proof.
  pose proof (wallet_scan_batch world_helper_down second_endpoint_answers [] 2 "avax"
                "0xowner" []) as [_ Hknown].
  pose proof (wallet_scan_batch world_helper_down second_endpoint_answers [] 2 "terra"
                "0xowner" []) as [Hunknown _].
  eexists. split; [reflexivity|]. split.
  - exact (proj2 (Hknown _ eq_refl) eq_refl _ eq_refl).
  - exact (Hunknown eq_refl).
Defined.

(** X18. When the token scan resolves, it has a record for every tracked
    token whose [balanceOf] call succeeded in the batch with a strictly
    positive result, under every order of the pushes. *)
Theorem wallet_scan_includes_positive_balances W sched chain wallet log records log' data
    token res contractResults rest z :
  getWalletTokenBalance W sched chain wallet log = (Ok records, log') ->
  getChainTokenData W chain = Some data ->
  token ∈ tokens data ->
  multicallCall W chain (balanceOfQueries data wallet) = Some res ->
  res !! td_address token = Some (contractResults :: rest) ->
  success contractResults = true ->
  returnValues contractResults !! 0%nat = Some (VBig z) ->
  0 < z ->
  addTrackedToken W chain "wallet" st_none token (inject_Z z) wallet ∈ records.
Proof.
  intros Hrun Hdata Htoken Hres Hcr Hsuccess Hfirst Hz.
  unfold getWalletTokenBalance in Hrun. rewrite Hdata, bind_run in Hrun.
  destruct (multicallOneMethodQuery W chain _ _ _ _ log) as [[multicallResults|e] log1]
    eqn:Hquery; [|discriminate].
  apply multicallOneMethodQuery_resolved in Hquery.
  destruct Hquery as (res' & Hres' & Hone).
  unfold balanceOfQueries in Hres. rewrite Hres in Hres'. injection Hres' as <-.
  unfold lift in Hrun. injection Hrun as Hall _.
  assert (Hlookup : multicallResults !! td_address token
                    = Some (returnValues contractResults)).
  { apply (oneMethodResults_lookup_complete res _ _ _ _ Hone).
    - apply list_elem_of_In, in_map, list_elem_of_In, Htoken.
    - unfold firstCallValues. rewrite Hcr, Hsuccess. reflexivity. }
  apply (promiseAll_includes _ _ _
           [addTrackedToken W chain "wallet" st_none token (inject_Z z) wallet] _ Hall).
  - apply list_elem_of_In, in_map_iff. exists token.
    split; [|apply list_elem_of_In, Htoken].
    unfold walletTokenBranch. rewrite Hlookup, Hfirst. simpl.
    rewrite Qle_bool_inject_Z. apply Z.leb_gt in Hz. rewrite Hz. reflexivity.
  - apply list_elem_of_singleton. reflexivity.
Qed.

Lemma wallet_scan_includes_positive_balances_witness :
  exists records log',
    getWalletTokenBalance world_wallet [2%nat; 0%nat] "avax" "0xowner" [] = (Ok records, log') /\
    addTrackedToken world_wallet "avax" "wallet" st_none joe_entry
      (inject_Z 5000000000000000000) "0xowner" ∈ records.
Proof.
  eexists _, _. split; [vm_compute; reflexivity|].
  eapply (wallet_scan_includes_positive_balances world_wallet [2%nat; 0%nat] "avax"
            "0xowner" [] _ _ _ joe_entry).
  - vm_compute. reflexivity.
  - reflexivity.
  - apply list_elem_of_In. left. reflexivity.
  - reflexivity.
  - vm_compute. reflexivity.
  - reflexivity.
  - reflexivity.
  - lia.
Defined.

(** X19. [getWalletBalance] returns at most one record per tracked token of
    the chain, and at most one native record before them. *)
Theorem wallet_scan_size W getBalance sched fuel chain wallet scan log records log' :
  getWalletBalance W getBalance sched fuel chain wallet = Some scan ->
  scan log = (Ok records, log') ->
  (length records <= 1 + length (getTokens W chain))%nat.
Proof.
  unfold getWalletBalance, getTokens.
  destruct (getWalletNativeTokenBalance W getBalance fuel chain wallet) as [native|]
    eqn:Hnative; [|discriminate].
  intros [= <-]. rewrite bind_run.
  destruct (getWalletTokenBalance W sched chain wallet log) as [[walletTokens|e] log1]
    eqn:Htokens; [|discriminate].
  intros [= <- _]. rewrite length_app.
  assert (Hn : (length native <= 1)%nat).
  { unfold getWalletNativeTokenBalance in Hnative.
    destruct (native_loop _ _ _ _ _ _) as [s|]; [|discriminate].
    destruct (n_balance s) as [q|]; [destruct (_ && _)|];
      injection Hnative as <-; cbn; lia. }
  assert (Ht : (length walletTokens
                <= length match getChainTokenData W chain with
                          | Some chainTokenData => tokens chainTokenData
                          | None => []
                          end)%nat).
  { unfold getWalletTokenBalance in Htokens.
    destruct (getChainTokenData W chain) as [data|];
      [|injection Htokens as <- _; cbn; lia].
    rewrite bind_run in Htokens.
    destruct (multicallOneMethodQuery W chain _ _ _ _ log) as [[multicallResults|e] log2];
      [|discriminate].
    unfold lift in Htokens. injection Htokens as Hall _.
    apply promiseAll_length in Hall.
    - rewrite length_map in Hall. exact Hall.
    - intros pushed Hp. apply list_elem_of_In, in_map_iff in Hp.
      destruct Hp as (token & Hbranch & _). unfold walletTokenBranch in Hbranch.
      destruct (multicallResults !! td_address token) as [balanceResults|];
        [|injection Hbranch as <-; cbn; lia].
      unfold mbind, outcome_bind in Hbranch.
      destruct (parseBN _) as [rawBalance|e]; [|discriminate].
      destruct (negb _); injection Hbranch as <-; cbn; lia. }
  lia.
Qed.

Lemma wallet_scan_size_witness :
  exists scan records log',
    getWalletBalance world_wallet second_endpoint_answers [] 2 "avax" "0xowner" = Some scan /\
    scan [] = (Ok records, log') /\ (length records <= 4)%nat.
Proof.
  eexists _, _, _. split; [reflexivity|]. split; [vm_compute; reflexivity|].
  eapply (wallet_scan_size world_wallet second_endpoint_answers [] 2 "avax" "0xowner"
            _ [] _ _ eq_refl).
  vm_compute. reflexivity.
Defined.

(** ** The batches of [fetchPoolIDsFromFactory] *)

Lemma batch_loop_partition {A : Type} (creationEvents : list A) (fuel startBatch : nat) :
  (length creationEvents - startBatch <= fuel)%nat ->
  exists batches,
    batch_loop fuel creationEvents startBatch (startBatch + batchSize) = Some batches /\
    concat batches = drop startBatch creationEvents /\
    Forall (fun batch => (0 < length batch <= batchSize)%nat) batches.
Proof.
  revert startBatch. induction fuel as [|fuel IH]; intros startBatch Hfuel;
    cbn [batch_loop];
    destruct (Nat.ltb_spec (startBatch + batchSize) (length creationEvents + batchSize))
      as [Hlt|Hge].
  - lia.
  - exists []. split; [reflexivity|]. split; [|constructor].
    rewrite drop_ge by lia. reflexivity.
  - destruct (IH (startBatch + batchSize)%nat) as (batches & -> & Hconcat & Hall);
      [unfold batchSize in *; lia|].
    eexists. split; [reflexivity|]. split.
    + cbn [concat]. rewrite Hconcat. unfold slice.
      replace (startBatch + batchSize - startBatch)%nat with batchSize by lia.
      replace (drop (startBatch + batchSize) creationEvents)
        with (drop batchSize (drop startBatch creationEvents))
        by (rewrite drop_drop; f_equal; lia).
      apply take_drop.
    + constructor; [|exact Hall]. unfold slice.
      replace (startBatch + batchSize - startBatch)%nat with batchSize by lia.
      rewrite length_take, length_drop. unfold batchSize in *. lia.
  - exists []. split; [reflexivity|]. split; [|constructor].
    rewrite drop_ge by lia. reflexivity.
Qed.

(** X20. The batches [fetchPoolIDsFromFactory] processes one after the
    other hold every creation event exactly once, in order, and at most 50
    events each; no batch is empty unless there is no event at all. The
    loop needs no more iterations than there are events. *)
Theorem eventBatches_partition {A : Type} (creationEvents : list A) (fuel : nat) :
  (length creationEvents <= fuel)%nat ->
  exists batches,
    eventBatches fuel creationEvents = Some batches /\
    concat batches = creationEvents /\
    Forall (fun batch => (length batch <= batchSize)%nat) batches /\
    (creationEvents <> [] -> Forall (fun batch => batch <> []) batches).
Proof.
  intros Hfuel. unfold eventBatches.
  destruct (Nat.leb_spec (length creationEvents) batchSize) as [Hsmall|Hlarge].
  - exists [creationEvents]. split; [reflexivity|]. split; [cbn; apply app_nil_r|].
    split; [|intros Hne]; (constructor; [assumption|constructor]).
  - destruct (batch_loop_partition creationEvents fuel 0) as (batches & Hrun & Hconcat & Hall);
      [lia|].
    exists batches. split; [exact Hrun|]. split; [exact Hconcat|].
    split; [|intros _]; eapply Forall_impl; try exact Hall; cbn.
    + intros batch Hb. lia.
    + intros batch Hb ->. cbn in Hb. lia.
Qed.

Lemma eventBatches_partition_witness :
  eventBatches 120 (seq 0 120) = Some [seq 0 50; seq 50 50; seq 100 20] /\
  exists batches,
    eventBatches 120 (seq 0 120) = Some batches /\ concat batches = seq 0 120.
Proof.
  split; [reflexivity|].
  destruct (eventBatches_partition (seq 0 120) 120) as (batches & Hrun & Hconcat & _).
  - rewrite length_seq. lia.
  - exists batches. split; [exact Hrun|exact Hconcat].
Defined.

(** ** The project names of [updateProjects] *)

Lemma list_ascii_of_string_app (s1 s2 : string) :
  list_ascii_of_string (s1 ++ s2) = list_ascii_of_string s1 ++ list_ascii_of_string s2.
Proof.
  induction s1 as [|c s1 IH]; simpl; [reflexivity|]. f_equal. exact IH.
Qed.

Lemma js_file_is_kept (name : string) : endsWith (name ++ ".js") ".d.ts" = false.
Proof.
  unfold endsWith. apply bool_decide_eq_false. intros [k Hk].
  rewrite list_ascii_of_string_app in Hk. cbn in Hk.
  apply (f_equal reverse) in Hk. rewrite !reverse_app in Hk. cbn in Hk.
  discriminate.
Qed.

Lemma declaration_file_is_skipped (name : string) : endsWith (name ++ ".d.ts") ".d.ts" = true.
Proof.
  unfold endsWith. apply bool_decide_eq_true.
  rewrite list_ascii_of_string_app. apply suffix_app_r. reflexivity.
Qed.

Lemma sliceOffEnd_extension (name : string) : sliceOffEnd (name ++ ".js") 3 = name.
Proof.
  unfold sliceOffEnd. rewrite list_ascii_of_string_app, length_app. cbn [list_ascii_of_string length].
  rewrite take_app_length' by lia. apply string_of_list_ascii_of_string.
Qed.

(** X21. From a directory that holds, for each project, its compiled
    module [name.js] and its declaration file [name.d.ts], [updateProjects]
    derives exactly the project names, in the order of the directory: the
    declaration files are skipped and the [.js] extension is cut off. A name
    of three characters or fewer becomes the empty string. *)
Theorem projectNames_of_compiled_directory (names : list string) :
  projectNames (flat_map (fun name : string =>
                            [(name ++ ".js")%string; (name ++ ".d.ts")%string]) names)
  = names /\
  (forall file, endsWith file ".d.ts" = false ->
                (String.length file <= 3)%nat -> projectNames [file] = [""]).
Proof.
  split.
  - unfold projectNames. induction names as [|name names IH]; [reflexivity|].
    cbn [flat_map app]. rewrite !filter_cons.
    rewrite js_file_is_kept, declaration_file_is_skipped. cbn [negb].
    rewrite decide_True by reflexivity. rewrite decide_False by discriminate.
    cbn [map]. rewrite sliceOffEnd_extension, IH. reflexivity.
  - intros file Hkeep Hshort. unfold projectNames.
    rewrite filter_cons, Hkeep. cbn [negb]. rewrite decide_True by reflexivity.
    cbn [filter list_filter map]. unfold sliceOffEnd.
    replace (length (list_ascii_of_string file) - 3)%nat with 0%nat; [reflexivity|].
    assert (Hlen : length (list_ascii_of_string file) = String.length file).
    { clear. induction file as [|c file IH]; cbn; [reflexivity|]. rewrite IH. reflexivity. }
    lia.
Qed.

Lemma projectNames_of_compiled_directory_witness :
  projectNames ["aave.js"; "aave.d.ts"; "axial.js"; "axial.d.ts"] = ["aave"; "axial"] /\
  projectNames ["js"] = [""].
Proof.
  split.
  - exact (proj1 (projectNames_of_compiled_directory ["aave"; "axial"])).
  - apply (proj2 (projectNames_of_compiled_directory [])).
    + reflexivity.
    + cbn. lia.
Defined.
